(** * prometheus-unified-exporter: the scrape pipeline of [main.go]

    A shallow embedding of [fetchMetrics], [addLabels], [serializeMetrics]
    and [handleMetrics], and the properties of the fan-out / fan-in
    pipeline they implement.

    Conventions.
    - A Go [map[string]V] is a [gmap string V]; the nil map is [None] of
      [gomap V].  Go leaves the order of [range] over a map unspecified, so
      every such loop takes the order from an oracle that is only known to
      enumerate the map ([≡ₚ map_to_list]).
    - [dto.LabelPair] holds two [*string]; the strings live in a store of
      cells ([heap]) and a label pair holds two addresses.
    - The codec ([expfmt]), the HTTP client and the response writer are not
      part of this program: they are parameters of the sections below. *)

From Stdlib Require Import String Ascii ZArith List Lia.
From stdpp Require Import base gmap strings list sorting fin_maps.

Local Open Scope list_scope.

(** ** The store of string cells *)

(** Addresses are indices into the store. *)
Abbreviation loc := nat (only parsing).
Abbreviation heap := (list string) (only parsing).

(** A fresh cell is taken at the end of the store. *)
Definition alloc (s : string) (h : heap) : loc * heap := (length h, h ++ [s]).

(** Assignment to the variable at address [l]. *)
Definition store (l : loc) (s : string) (h : heap) : heap := <[l := s]> h.

(** [*p]; the getters of [dto] read a nil pointer as the empty string. *)
Definition load (h : heap) (l : loc) : string := default EmptyString (h !! l).

(** ** [dto]: the structured metric-family representation *)

Inductive MetricType := COUNTER | GAUGE | SUMMARY | UNTYPED | HISTOGRAM.

(** [dto.LabelPair{Name *string; Value *string}] *)
Record LabelPair := { lpName : loc; lpValue : loc }.

(** [dto.Metric]: its label list, over a representation [P] of label pairs.
    [mData] stands for the value fields (Gauge, Counter, Summary, Untyped,
    Histogram, TimestampMs), which this program neither reads nor writes. *)
Record Metric (P : Type) := { mLabel : list P; mData : Z }.
Arguments mLabel {P} _.
Arguments mData {P} _.

(** [dto.MetricFamily] *)
Record MetricFamily (P : Type) := {
  mfName : string;
  mfHelp : option string;
  mfType : option MetricType;
  mfMetric : list (Metric P)
}.
Arguments mfName {P} _.
Arguments mfHelp {P} _.
Arguments mfType {P} _.
Arguments mfMetric {P} _.

(** A Go map value: [None] is the nil map. *)
Definition gomap (V : Type) := option (gmap string V).

(** The entries a [range] loop or a lookup sees: none for the nil map. *)
Definition entries {V} (m : gomap V) : gmap string V := default ∅ m.

(** The families as the pointers of the store show them: every label pair
    read through its two addresses. *)
Definition viewPair (h : heap) (p : LabelPair) : string * string :=
  (load h (lpName p), load h (lpValue p)).

Definition viewMetric (h : heap) (m : Metric LabelPair) : Metric (string * string) :=
  {| mLabel := viewPair h <$> mLabel m; mData := mData m |}.

Definition viewFamily (h : heap) (mf : MetricFamily LabelPair)
  : MetricFamily (string * string) :=
  {| mfName := mfName mf; mfHelp := mfHelp mf; mfType := mfType mf;
     mfMetric := viewMetric h <$> mfMetric mf |}.

Definition viewMap (h : heap) (m : gomap (MetricFamily LabelPair))
  : gomap (MetricFamily (string * string)) :=
  fmap (M := option) (fmap (M := gmap string) (viewFamily h)) m.

(** Every address of the sample's label pairs is allocated in [h]. *)
Definition wfMetric (h : heap) (m : Metric LabelPair) : Prop :=
  Forall (λ p, lpName p < length h ∧ lpValue p < length h) (mLabel m).

(** ** [addLabels] (main.go, lines 79-90)

    The module declares [go 1.20]: the variables of a [for ... range]
    clause are created once per execution of the loop statement and
    assigned at every iteration.  [&labelName] and [&labelValue] are
    therefore the same two addresses at every iteration of one loop. *)

Section AddLabels.

(** The order in which the runtime enumerates [labels] in the execution
    of the inner loop whose [labelName] variable lives at the given
    address (one execution per sample, each with its own variable). *)
Variable rangeLabels : gmap string string → loc → list (string * string).

(** The order in which the runtime enumerates [metrics]. *)
Variable rangeFamilies :
  gmap string (MetricFamily LabelPair) → list (string * MetricFamily LabelPair).

(** [for labelName, labelValue := range labels { m.Label = append(...) }]
    with the two loop variables at [ln] and [lv]. *)
Fixpoint labelLoop (kvs : list (string * string)) (ln lv : loc)
    (m : Metric LabelPair) (h : heap) : Metric LabelPair * heap :=
  match kvs with
  | [] => (m, h)
  | (labelName, labelValue) :: rest =>
      let h1 := store lv labelValue (store ln labelName h) in
      let m1 := {| mLabel := mLabel m ++ [{| lpName := ln; lpValue := lv |}];
                   mData := mData m |} in
      labelLoop rest ln lv m1 h1
  end.

(** One execution of the inner loop statement on sample [m]. *)
Definition addLabelsMetric (labels : gmap string string)
    (m : Metric LabelPair) (h : heap) : Metric LabelPair * heap :=
  let '(ln, h1) := alloc EmptyString h in
  let '(lv, h2) := alloc EmptyString h1 in
  labelLoop (rangeLabels labels ln) ln lv m h2.

(** [for _, m := range mf.Metric]: the samples are reached through
    pointers, so each one is updated in place. *)
Fixpoint addLabelsMetrics (labels : gmap string string)
    (ms : list (Metric LabelPair)) (h : heap) : list (Metric LabelPair) * heap :=
  match ms with
  | [] => ([], h)
  | m :: rest =>
      let '(m', h1) := addLabelsMetric labels m h in
      let '(rest', h2) := addLabelsMetrics labels rest h1 in
      (m' :: rest', h2)
  end.

Definition addLabelsFamily (labels : gmap string string)
    (mf : MetricFamily LabelPair) (h : heap) : MetricFamily LabelPair * heap :=
  let '(ms, h') := addLabelsMetrics labels (mfMetric mf) h in
  ({| mfName := mfName mf; mfHelp := mfHelp mf; mfType := mfType mf;
      mfMetric := ms |}, h').

(** [for _, mf := range metrics]: the map holds pointers to families, the
    family under each key is updated in place. *)
Fixpoint familyLoop (labels : gmap string string)
    (kfs : list (string * MetricFamily LabelPair))
    (mp : gmap string (MetricFamily LabelPair)) (h : heap)
    : gmap string (MetricFamily LabelPair) * heap :=
  match kfs with
  | [] => (mp, h)
  | (k, mf) :: rest =>
      let '(mf', h1) := addLabelsFamily labels mf h in
      familyLoop labels rest (<[k := mf']> mp) h1
  end.

(** [addLabels(metrics, labels)]: the map and the store after the call.
    Ranging over the nil map runs no iteration. *)
Definition addLabels (metrics : gomap (MetricFamily LabelPair))
    (labels : gmap string string) (h : heap)
    : gomap (MetricFamily LabelPair) * heap :=
  match metrics with
  | None => (None, h)
  | Some mp =>
      let '(mp', h') := familyLoop labels (rangeFamilies mp) mp h in
      (Some mp', h')
  end.

End AddLabels.

(** ** Targets and configuration (main.go, lines 19-33) *)

Record Target := {
  URL : string;
  Labels : gmap string string;
  labelsSerialized : string
}.

Record Config := { Listen : string; Targets : list Target }.

(** ** [fetchMetrics] and the fetch task (main.go, lines 63-77, 116-125) *)

Definition error := string.

(** What [ioutil.ReadAll(resp.Body)] returns. *)
Inductive bodyRead := ReadError (e : error) | ReadAll (body : string).

(** What [http.Get] returns: an error, or a response with its status code
    and its body.  A response of any status comes with a nil error. *)
Inductive httpResult :=
  | TransportError (e : error)
  | Response (statusCode : nat) (body : bodyRead).

Definition fetchFailedMsg (url : string) (e : error) : string :=
  "failed to fetch metrics from " +:+ url +:+ ": " +:+ e.

Section Collector.

(** The network during one scrape. *)
Variable httpGet : string → httpResult.

(** [expfmt.TextParser.TextToMetricFamilies]: the decoded map, the error,
    and the store in which the decoded label strings live. *)
Variable TextToMetricFamilies :
  string → heap * gomap (MetricFamily LabelPair) * option error.

Variable rangeLabels : gmap string string → loc → list (string * string).
Variable rangeFamilies :
  gmap string (MetricFamily LabelPair) → list (string * MetricFamily LabelPair).

(** [resp.StatusCode] is never read. *)
Definition fetchMetrics (url : string)
    : heap * gomap (MetricFamily LabelPair) * option error :=
  match httpGet url with
  | TransportError e => ([], None, Some e)
  | Response _ (ReadError e) => ([], None, Some e)
  | Response _ (ReadAll body) => TextToMetricFamilies body
  end.

(** The body of the goroutine started for target [t]: the value its
    deferred [ch <- metricFamilies] sends, and what it logs.  The error
    branch logs and falls through to [addLabels].  No cell is written
    after the send, so the message is given as the receiver reads it:
    the map with every label pair dereferenced. *)
Definition fetchTask (t : Target)
    : gomap (MetricFamily (string * string)) * list string :=
  let '(h, metricFamilies, err) := fetchMetrics (URL t) in
  let lg := match err with
            | Some e => [fetchFailedMsg (URL t) e]
            | None => []
            end in
  let '(labelled, h') :=
    addLabels rangeLabels rangeFamilies metricFamilies (Labels t) h in
  (viewMap h' labelled, lg).

End Collector.

(** ** The response writer

    [http.ResponseWriter]: the first [Write] sends the header with status
    200 unless [WriteHeader] was called before, and so does the server when
    the handler returns without having written.  [handleMetrics] never
    calls [WriteHeader]. *)

Record ResponseWriter := { status : option nat; body : string }.

Definition newResponse : ResponseWriter := {| status := None; body := EmptyString |}.

Definition Write (bs : string) (w : ResponseWriter) : ResponseWriter :=
  {| status := Some (default 200 (status w)); body := body w +:+ bs |}.

(** What the server does when the handler returns. *)
Definition finish (w : ResponseWriter) : ResponseWriter :=
  {| status := Some (default 200 (status w)); body := body w |}.

(** The encoder writes through a buffer that it flushes when it returns;
    a flush of an empty buffer does not reach the writer. *)
Definition flush (bs : string) (w : ResponseWriter) : ResponseWriter :=
  if decide (bs = EmptyString) then w else Write bs w.

Definition serializeFailedMsg (e : error) : string :=
  "failed to serialize metrics: " +:+ e.

(** ** Aggregation and serialization (main.go, lines 92-108, 127-139) *)

Section Pipeline.

Context {P : Type}.

(** The order in which the runtime enumerates a map of families. *)
Variable rangeMap :
  gmap string (MetricFamily P) → list (string * MetricFamily P).

(** [MetricFamilyToText]: the bytes the text encoder hands to the writer
    for a family (flushed also when it fails), and its error. *)
Variable MetricFamilyToText : MetricFamily P → string * option error.

(** What a request leaves behind: the response, the families handed to
    [encoder.Encode] in call order, and the log lines of the handler. *)
Record world := {
  resp : ResponseWriter;
  encoded : list (MetricFamily P);
  logs : list string
}.

Definition newWorld : world :=
  {| resp := newResponse; encoded := []; logs := [] |}.

(** The body of the loop at lines 129-135 for one entry [(n, mf)]. *)
Definition mergeFamily (allMetricsFamilies : gmap string (MetricFamily P))
    (n : string) (mf : MetricFamily P) : gmap string (MetricFamily P) :=
  match allMetricsFamilies !! n with
  | Some amf =>
      <[n := {| mfName := mfName amf; mfHelp := mfHelp amf;
                mfType := mfType amf;
                mfMetric := mfMetric amf ++ mfMetric mf |}]> allMetricsFamilies
  | None => <[mfName mf := mf]> allMetricsFamilies
  end.

(** [for n, mf := range <-ch { ... }] for one received map. *)
Definition mergeResult (allMetricsFamilies : gmap string (MetricFamily P))
    (r : gomap (MetricFamily P)) : gmap string (MetricFamily P) :=
  foldl (λ acc kv, mergeFamily acc kv.1 kv.2) allMetricsFamilies
        (rangeMap (entries r)).

(** The receive loop over the results in the order they arrive. *)
Definition aggregate (results : list (gomap (MetricFamily P)))
    : gmap string (MetricFamily P) :=
  foldl mergeResult ∅ results.

(** [*lst[i].Name < *lst[j].Name]: byte-wise comparison of strings. *)
Definition less (a b : MetricFamily P) : bool :=
  String.ltb (mfName a) (mfName b).

(** The order a sort by [less] establishes: no element is followed by
    one that is [less] than it. *)
Definition notAfter (a b : MetricFamily P) : Prop := less b a = false.

#[export] Instance notAfter_dec : RelDecision notAfter.
Proof. intros a b. unfold notAfter. apply _. Defined.

(** [sort.Slice(lst, less)]: a sort by [less]; it need not be stable. *)
Definition sortSlice (lst : list (MetricFamily P)) : list (MetricFamily P) :=
  merge_sort notAfter lst.

(** [encoder.Encode(mf)] on the response writer. *)
Definition Encode (mf : MetricFamily P) (wd : world) : world * option error :=
  let '(bs, err) := MetricFamilyToText mf in
  ({| resp := flush bs (resp wd);
      encoded := encoded wd ++ [mf];
      logs := logs wd |}, err).

(** The loop at lines 101-106. *)
Fixpoint encodeLoop (lst : list (MetricFamily P)) (wd : world)
    : world * option error :=
  match lst with
  | [] => (wd, None)
  | mf :: rest =>
      let '(wd', err) := Encode mf wd in
      match err with
      | Some e => (wd', Some e)
      | None => encodeLoop rest wd'
      end
  end.

Definition serializeMetrics (metricFamilies : gmap string (MetricFamily P))
    (wd : world) : world * option error :=
  let lst := (rangeMap metricFamilies).*2 in
  encodeLoop (sortSlice lst) wd.

(** [handleMetrics] from the receive loop on, given the results in the
    order the handler receives them. *)
Definition collate (results : list (gomap (MetricFamily P))) : world :=
  let allMetricsFamilies := aggregate results in
  let '(wd, err) := serializeMetrics allMetricsFamilies newWorld in
  match err with
  | Some e => {| resp := resp wd; encoded := encoded wd;
                 logs := logs wd ++ [serializeFailedMsg e] |}
  | None => wd
  end.

(** The bytes the encoder produces for a list of families, in order. *)
Definition bytesOf (lst : list (MetricFamily P)) : string :=
  foldr (λ mf acc, (MetricFamilyToText mf).1 +:+ acc) EmptyString lst.

(** The encoder accepts the family. *)
Definition accepted (mf : MetricFamily P) : Prop :=
  (MetricFamilyToText mf).2 = None.

(** Ascending by name, strictly. *)
Definition ascending (lst : list (MetricFamily P)) : Prop :=
  StronglySorted (λ a b, less a b = true) lst.

(** The number of samples stored under a name. *)
Definition sampleCount (m : gmap string (MetricFamily P)) (n : string) : nat :=
  match m !! n with
  | Some mf => length (mfMetric mf)
  | None => 0
  end.

(** A map of families as the text parser builds it and as the handler
    keeps it: every family sits under its own name. *)
Definition keyed (m : gmap string (MetricFamily P)) : Prop :=
  ∀ k mf, m !! k = Some mf → mfName mf = k.

End Pipeline.

Arguments world : clear implicits.

(** ** [handleMetrics] (main.go, lines 112-140) *)

Section Handler.

Variable httpGet : string → httpResult.
Variable TextToMetricFamilies :
  string → heap * gomap (MetricFamily LabelPair) * option error.
Variable rangeLabels : gmap string string → loc → list (string * string).
Variable rangeFamilies :
  gmap string (MetricFamily LabelPair) → list (string * MetricFamily LabelPair).
Variable rangeMap :
  gmap string (MetricFamily (string * string))
  → list (string * MetricFamily (string * string)).
Variable MetricFamilyToText :
  MetricFamily (string * string) → string * option error.

(** The message target [t] sends on the channel. *)
Definition contribution (t : Target) : gomap (MetricFamily (string * string)) :=
  (fetchTask httpGet TextToMetricFamilies rangeLabels rangeFamilies t).1.

(** The map the handler holds when it leaves the receive loop, the
    targets listed in the order their results arrive. *)
Definition merged (arrival : list Target)
    : gmap string (MetricFamily (string * string)) :=
  aggregate rangeMap (contribution <$> arrival).

(** One scrape request: what [handleMetrics] leaves behind. *)
Definition handleMetrics (arrival : list Target)
    : world (string * string) :=
  collate rangeMap MetricFamilyToText (contribution <$> arrival).

(** The response the scraper receives. *)
Definition scrape (arrival : list Target) : ResponseWriter :=
  finish (resp (handleMetrics arrival)).

(** The message of goroutine [i], the one started for [cfg.Targets[i]]. *)
Definition messageOf (targets : list Target) (i : nat)
    : gomap (MetricFamily (string * string)) :=
  from_option contribution None (targets !! i).

End Handler.

(** The targets in the order their goroutines were received from. *)
Definition arrivalOf (targets : list Target) (received : list nat) : list Target :=
  omap (targets !!.) received.

(** ** The fan-out / fan-in of [handleMetrics] as a transition system

    One goroutine per target and the handler run interleaved.  Goroutine
    [i] fetches, labels, and then performs its deferred send of [res i] on
    the channel [ch], created with capacity [len(cfg.Targets)].  A send is
    enabled only while the buffer has a free slot; a receive only while the
    buffer is not empty. *)

(** Where the handler stands: in the loop that starts the goroutines, about
    to start the one of target [i]; in the receive loop, [k] iterations
    done; or past it, at the call of [serializeMetrics]. *)
Inductive handlerPc := Spawning (i : nat) | Receiving (k : nat) | Serializing.

Section FanIn.

Context {R A : Type}.

(** [len(cfg.Targets)] *)
Variable N : nat.
(** The message goroutine [i] sends: the nil map when its fetch failed.
    The send is deferred, so it runs whether the fetch failed or not. *)
Variable res : nat → R.
(** The body of the receive loop for one received message. *)
Variable mergeOne : A → R → A.
(** The empty [allMetricsFamilies]. *)
Variable emptyAll : A.

(** [fetching]: goroutines started that have not reached their send.
    [sending]: goroutines at [ch <- metricFamilies].
    [chan]: the buffer of [ch], oldest first, each message [res i] named
    by its sender [i].
    [sent], [received]: the sends and the receives performed so far, in
    order (history, not read by the program). *)
Record fanState := {
  pc : handlerPc;
  fetching : list nat;
  sending : list nat;
  chan : list nat;
  allFamilies : A;
  sent : list nat;
  received : list nat
}.

(** [make(chan map[string]*dto.MetricFamily, len(cfg.Targets))] *)
Definition capacity : nat := N.

Definition fanInit : fanState :=
  {| pc := Spawning 0; fetching := []; sending := []; chan := [];
     allFamilies := emptyAll; sent := []; received := [] |}.

Inductive fanStep : fanState → fanState → Prop :=
| step_go s i :
    pc s = Spawning i → i < N →
    fanStep s {| pc := Spawning (S i); fetching := i :: fetching s;
                 sending := sending s; chan := chan s;
                 allFamilies := allFamilies s;
                 sent := sent s; received := received s |}
| step_started s :
    pc s = Spawning N →
    fanStep s {| pc := Receiving 0; fetching := fetching s;
                 sending := sending s; chan := chan s;
                 allFamilies := allFamilies s;
                 sent := sent s; received := received s |}
| step_fetched s i l1 l2 :
    fetching s = l1 ++ i :: l2 →
    fanStep s {| pc := pc s; fetching := l1 ++ l2;
                 sending := i :: sending s; chan := chan s;
                 allFamilies := allFamilies s;
                 sent := sent s; received := received s |}
| step_send s i l1 l2 :
    sending s = l1 ++ i :: l2 → length (chan s) < capacity →
    fanStep s {| pc := pc s; fetching := fetching s;
                 sending := l1 ++ l2; chan := chan s ++ [i];
                 allFamilies := allFamilies s;
                 sent := sent s ++ [i]; received := received s |}
| step_recv s k i rest :
    pc s = Receiving k → k < N → chan s = i :: rest →
    fanStep s {| pc := Receiving (S k); fetching := fetching s;
                 sending := sending s; chan := rest;
                 allFamilies := mergeOne (allFamilies s) (res i);
                 sent := sent s; received := received s ++ [i] |}
| step_leave s :
    pc s = Receiving N →
    fanStep s {| pc := Serializing; fetching := fetching s;
                 sending := sending s; chan := chan s;
                 allFamilies := allFamilies s;
                 sent := sent s; received := received s |}.

Definition reachable (s : fanState) : Prop := rtc fanStep fanInit s.

(** The number of goroutines started so far. *)
Definition started (s : fanState) : nat :=
  match pc s with
  | Spawning i => i
  | _ => N
  end.

(** The number of receives the handler counts. *)
Definition receiveCount (s : fanState) : nat :=
  match pc s with
  | Spawning _ => 0
  | Receiving k => k
  | Serializing => N
  end.

(** A goroutine at its send is blocked when the buffer is full. *)
Definition sendBlocked (s : fanState) : Prop :=
  sending s ≠ [] ∧ capacity ≤ length (chan s).

(** The number of steps left to a run: the goroutines still to start, the
    end of the start loop, the fetches and the sends still to come, the
    receives still to perform, and the exit of the receive loop. *)
Definition fanMeasure (s : fanState) : nat :=
  (N - started s)
  + match pc s with Spawning _ => 1 | _ => 0 end
  + (length (fetching s) + (N - started s))
  + (length (fetching s) + length (sending s) + (N - started s))
  + (N - receiveCount s)
  + match pc s with Serializing => 0 | _ => 1 end.

(** What holds of every reachable state: the goroutines started are those
    of the first [started] targets, each of them fetching, at its send, or
    past its send; the channel holds, in order, the messages sent and not
    yet received; the handler has counted as many receives as it
    performed; and its map is the merge of the messages received. *)
Definition fanInv (s : fanState) : Prop :=
  started s ≤ N
  ∧ fetching s ++ sending s ++ sent s ≡ₚ seq 0 (started s)
  ∧ sent s = received s ++ chan s
  ∧ length (received s) = receiveCount s
  ∧ receiveCount s ≤ N
  ∧ allFamilies s = foldl mergeOne emptyAll (res <$> received s).

End FanIn.

Arguments fanState : clear implicits.

(** ** [loadConfig] and [main] (main.go, lines 37-61 and 142-157) *)

(** What a call that returns a value and an [error] returns. *)
Inductive result (T : Type) := Ok (x : T) | Err (e : error).
Arguments Ok {T} _.
Arguments Err {T} _.

(** The double quote. *)
Definition dquote : string := String (ascii_of_nat 34) EmptyString.

(** [fmt.Sprintf(`%s="%s"`, k, v)] *)
Definition formatLabel (kv : string * string) : string :=
  kv.1 +:+ "=" +:+ dquote +:+ kv.2 +:+ dquote.

(** [strings.Join(l, sep)] *)
Fixpoint Join (l : list string) (sep : string) : string :=
  match l with
  | [] => EmptyString
  | s :: rest =>
      match rest with
      | [] => s
      | _ => s +:+ sep +:+ Join rest sep
      end
  end.

(** The inner loop of [loadConfig] and the join, for the labels in the
    order the runtime enumerates them. *)
Definition serializeLabels (kvs : list (string * string)) : string :=
  Join (formatLabel <$> kvs) ",".

(** [cfg.Targets[i].labelsSerialized = s] *)
Definition setSerialized (s : string) (t : Target) : Target :=
  {| URL := URL t; Labels := Labels t; labelsSerialized := s |}.

(** How the process ends: [os.Exit] with a code, or serving requests with
    the configuration [cfg] for as long as it lives. *)
Inductive ending := Exited (code : nat) | Serving (cfg : Config).

(** A run of [main]: the lines it logs, and how it ends. *)
Record startup := { mainLog : list string; mainEnd : ending }.

(** [log.SetFlags(0)] and [log.SetPrefix]: every line is the prefix and
    the message. *)
Definition logLine (msg : string) : string :=
  "prometheus-unified-exporter: " +:+ msg.

Section Startup.

(** [os.Open] followed by reading the file, [yaml.NewDecoder(f).Decode],
    [os.Getenv], and [http.ListenAndServe], which returns an error or
    does not return. *)
Variable osOpen : string → result string.
Variable yamlDecode : string → result Config.
Variable getenv : string → string.
Variable ListenAndServe : string → option error.

(** The order in which the runtime enumerates the labels of target [i]. *)
Variable rangeTargetLabels : nat → gmap string string → list (string * string).

(** [for i, t := range cfg.Targets { ... }], from index [i] on: [t] is a
    copy of the element, the assignment goes to the element itself. *)
Fixpoint serializeLoop (i : nat) (ts : list Target) (targets : list Target)
    : list Target :=
  match ts with
  | [] => targets
  | t :: rest =>
      let l := formatLabel <$> rangeTargetLabels i (Labels t) in
      serializeLoop (S i) rest (alter (setSerialized (Join l ",")) i targets)
  end.

Definition loadConfig (path : string) : result Config :=
  match osOpen path with
  | Err e => Err e
  | Ok f =>
      match yamlDecode f with
      | Err e => Err e
      | Ok cfg =>
          let listen := if decide (Listen cfg = EmptyString)
                        then "0.0.0.0:9001" else Listen cfg in
          Ok {| Listen := listen;
                Targets := serializeLoop 0 (Targets cfg) (Targets cfg) |}
      end
  end.

(** [log.Fatal] logs and exits with status 1. *)
Definition main : startup :=
  let configPath := getenv "PUE_CONFIG" in
  if decide (configPath = EmptyString) then
    {| mainLog :=
         [logLine "PUE_CONFIG env var must be set to the path of the config file"];
       mainEnd := Exited 1 |}
  else
    match loadConfig configPath with
    | Err e =>
        {| mainLog := [logLine ("failed to load config: " +:+ e)];
           mainEnd := Exited 1 |}
    | Ok cfg =>
        let listening :=
          logLine ("listening on http://" +:+ Listen cfg +:+ "/metrics") in
        match ListenAndServe (Listen cfg) with
        | Some e => {| mainLog := [listening; logLine e]; mainEnd := Exited 1 |}
        | None => {| mainLog := [listening]; mainEnd := Serving cfg |}
        end
    end.

End Startup.

(** ** Notions used in the statements *)

(** The entry a finished label loop leaves in its two variables: the one
    enumerated last (the initial empty strings if there was none). *)
Definition lastEntry (kvs : list (string * string)) : string * string :=
  default (EmptyString, EmptyString) (last kvs).

(** The label pairs a reader finds on the samples of family [n]. *)
Definition labelsOf (r : gomap (MetricFamily LabelPair) * heap) (n : string)
    : list (list (string * string)) :=
  match entries r.1 !! n with
  | Some mf => (λ m, mLabel (viewMetric r.2 m)) <$> mfMetric mf
  | None => []
  end.

(** Sample [m'], read in store [h'], is sample [m] of store [h] with, for
    a label set of [n] entries, [n] pairs appended that all read as one
    entry [e] of the set. *)
Definition injected (labels : gmap string string)
    (h : list string) (m : Metric LabelPair)
    (h' : list string) (m' : Metric LabelPair) : Prop :=
  wfMetric h' m' ∧ mData m' = mData m
  ∧ ∃ e, (labels = ∅ ∨ e ∈ map_to_list labels)
       ∧ mLabel (viewMetric h' m')
         = mLabel (viewMetric h m) ++ replicate (size labels) e.

(** Family [mf'] in store [h'] is family [mf] of store [h] with the label
    set injected into every sample. *)
Definition injectedFamily (labels : gmap string string)
    (h : list string) (mf : MetricFamily LabelPair)
    (h' : list string) (mf' : MetricFamily LabelPair) : Prop :=
  mfName mf' = mfName mf ∧ mfHelp mf' = mfHelp mf ∧ mfType mf' = mfType mf
  ∧ Forall2 (λ m m', injected labels h m h' m') (mfMetric mf) (mfMetric mf').

(** What the merge loop does to the entry of one name: the samples of the
    incoming family are appended to the family already kept, whose name,
    help and type stay; a family met for the first time is kept as it is. *)
Definition mergeEntry {P} (kept incoming : option (MetricFamily P))
    : option (MetricFamily P) :=
  match kept, incoming with
  | Some amf, Some mf =>
      Some {| mfName := mfName amf; mfHelp := mfHelp amf; mfType := mfType amf;
              mfMetric := mfMetric amf ++ mfMetric mf |}
  | Some amf, None => Some amf
  | None, o => o
  end.

(** The samples a result holds under a name. *)
Definition samplesOf {P} (r : gomap (MetricFamily P)) (n : string)
    : list (Metric P) :=
  from_option mfMetric [] (entries r !! n).

(** ** Inputs used in the examples *)

(** A target label set with two entries, and its two enumerations. *)
Definition twoLabels : gmap string string := {[ "a" := "1"; "b" := "2" ]}.
Definition orderAB : gmap string string → loc → list (string * string) :=
  λ _ _, [("a", "1"); ("b", "2")].
Definition orderBA : gmap string string → loc → list (string * string) :=
  λ _ _, [("b", "2"); ("a", "1")].

(** The decoded form of the one-line exposition [up{job="x"} 1]: the two
    label strings in cells 0 and 1. *)
Definition upHeap : heap := ["job"; "x"].
Definition upSample : Metric LabelPair :=
  {| mLabel := [{| lpName := 0; lpValue := 1 |}]; mData := 1 |}.
Definition upFamily : MetricFamily LabelPair :=
  {| mfName := "up"; mfHelp := None; mfType := Some UNTYPED;
     mfMetric := [upSample] |}.
Definition upDecoded : gomap (MetricFamily LabelPair) := Some {[ "up" := upFamily ]}.

(** A scrape of four targets.  [a] refuses the connection; [b] answers
    200 with the exposition [up 1]; [c] answers 500 with the same body;
    [d] answers 200 with [vm_bad 1] and [e] answers 200 with [zed 1]. *)
Definition demoNet (url : string) : httpResult :=
  if decide (url = "http://a/metrics") then TransportError "connection refused"
  else if decide (url = "http://b/metrics") then Response 200 (ReadAll "up 1")
  else if decide (url = "http://c/metrics") then Response 500 (ReadAll "up 1")
  else if decide (url = "http://d/metrics") then Response 200 (ReadAll "vm_bad 1")
  else if decide (url = "http://e/metrics") then Response 200 (ReadAll "zed 1")
  else TransportError "no such host".

(** A family of one sample without labels. *)
Definition plainFamily (n : string) : MetricFamily LabelPair :=
  {| mfName := n; mfHelp := None; mfType := Some UNTYPED;
     mfMetric := [{| mLabel := []; mData := 1 |}] |}.

(** A decoder for the three bodies of [demoNet]; any other body is a
    decode failure without a map. *)
Definition demoParser (body : string)
    : list string * gomap (MetricFamily LabelPair) * option error :=
  if decide (body = "up 1") then ([], Some {[ "up" := plainFamily "up" ]}, None)
  else if decide (body = "vm_bad 1")
    then ([], Some {[ "vm_bad" := plainFamily "vm_bad" ]}, None)
  else if decide (body = "zed 1")
    then ([], Some {[ "zed" := plainFamily "zed" ]}, None)
  else ([], None, Some "unexpected end of input stream").

(** An encoder that writes the name of a family and a semicolon, and
    rejects the family [vm_bad] after having written its name. *)
Definition demoEncoder (mf : MetricFamily (string * string))
    : string * option error :=
  if decide (mfName mf = "vm_bad") then (mfName mf, Some "rejected")
  else (mfName mf +:+ ";", None).

Definition mkTarget (url env : string) : Target :=
  {| URL := url; Labels := {[ "env" := env ]};
     labelsSerialized := EmptyString |}.

Definition targetA : Target := mkTarget "http://a/metrics" "prod".
Definition targetB : Target := mkTarget "http://b/metrics" "dev".
Definition targetC : Target := mkTarget "http://c/metrics" "test".
Definition targetD : Target := mkTarget "http://d/metrics" "dev".
Definition targetE : Target := mkTarget "http://e/metrics" "dev".

(** The runtime enumerating every map in the order of [map_to_list], and
    in the reverse of it. *)
Definition inOrder {V} (m : gmap string V) : list (string * V) := map_to_list m.
Definition inReverse {V} (m : gmap string V) : list (string * V) :=
  reverse (map_to_list m).
Definition labelsInOrder (m : gmap string string) (l : nat)
    : list (string * string) := map_to_list m.

(** A family of one sample labelled [env]. *)
Definition envFamily (n env : string) : MetricFamily (string * string) :=
  {| mfName := n; mfHelp := None; mfType := Some UNTYPED;
     mfMetric := [{| mLabel := [("env", env)]; mData := 1 |}] |}.

(** Two results that both hold a family [up], with different metadata. *)
Definition firstUp : MetricFamily (string * string) :=
  {| mfName := "up"; mfHelp := Some "first"; mfType := Some GAUGE;
     mfMetric := [{| mLabel := [("env", "prod")]; mData := 1 |}] |}.
Definition secondUp : MetricFamily (string * string) :=
  {| mfName := "up"; mfHelp := Some "second"; mfType := Some COUNTER;
     mfMetric := [{| mLabel := [("env", "dev")]; mData := 0 |};
                  {| mLabel := [("env", "dev"); ("job", "x")]; mData := 2 |}] |}.
Definition demoMap : gmap string (MetricFamily (string * string)) :=
  <[ "down" := envFamily "down" "dev" ]> {[ "up" := secondUp ]}.
Definition demoResults : list (gomap (MetricFamily (string * string))) :=
  [None; Some {[ "up" := firstUp ]}; Some demoMap].

(** A fan-in of two goroutines whose messages are their indices and whose
    merge appends: the state past the receive loop after goroutine 1 sent
    before goroutine 0, and a state with goroutine 0 at its send. *)
Definition demoDone : fanState (list nat) :=
  {| pc := Serializing; fetching := []; sending := []; chan := [];
     allFamilies := [1; 0]; sent := [1; 0]; received := [1; 0] |}.
Definition demoSending : fanState (list nat) :=
  {| pc := Receiving 0; fetching := [1]; sending := [0]; chan := [];
     allFamilies := []; sent := []; received := [] |}.
Definition demoMerging : fanState (list nat) :=
  {| pc := Receiving 1; fetching := [0]; sending := []; chan := [];
     allFamilies := [1]; sent := [1]; received := [1] |}.
Definition snoc (acc : list nat) (r : nat) : list nat := acc ++ [r].

(** The decoded map of [upDecoded], a label set of one entry, and one whose
    entry is named like the label the sample of [up] already has. *)
Definition upMap : gmap string (MetricFamily LabelPair) := {[ "up" := upFamily ]}.
Definition envLabels : gmap string string := {[ "env" := "prod" ]}.
Definition jobLabels : gmap string string := {[ "job" := "y" ]}.

(** A configuration file with two targets and no listen address, and the
    configuration [loadConfig] makes of it. *)
Definition demoOpen (path : string) : result string :=
  if decide (path = "/config.yaml") then Ok "targets: [a, b]"
  else Err "open: no such file or directory".
Definition demoYaml (f : string) : result Config :=
  Ok {| Listen := EmptyString; Targets := [targetA; targetB] |}.
Definition targetLabelsInOrder (i : nat) (m : gmap string string)
    : list (string * string) := map_to_list m.
Definition demoLoaded : Config :=
  {| Listen := "0.0.0.0:9001";
     Targets := [setSerialized ("env=" +:+ dquote +:+ "prod" +:+ dquote) targetA;
                 setSerialized ("env=" +:+ dquote +:+ "dev" +:+ dquote) targetB] |}.

(** The handler past the receive loop of a scrape of the one target [b]. *)
Definition demoFinal : fanState (gmap string (MetricFamily (string * string))) :=
  {| pc := Serializing; fetching := []; sending := []; chan := [];
     allFamilies :=
       mergeResult inOrder ∅
         (messageOf demoNet demoParser labelsInOrder inOrder [targetB] 0);
     sent := [0]; received := [0] |}.

(** * Properties *)

(** ** The store *)

Lemma load_app_l (h ext : heap) (l : loc) :
  l < length h → load (h ++ ext) l = load h l.
Proof. intros Hl. unfold load. by rewrite lookup_app_l. Qed.

Lemma load_fresh_0 (h ext : heap) (s : string) :
  load (h ++ s :: ext) (length h) = s.
Proof. unfold load. by rewrite list_lookup_middle. Qed.

Lemma load_fresh_1 (h ext : heap) (s1 s2 : string) :
  load (h ++ s1 :: s2 :: ext) (S (length h)) = s2.
Proof.
  unfold load. replace (h ++ s1 :: s2 :: ext) with ((h ++ [s1]) ++ s2 :: ext)
    by by rewrite <- app_assoc.
  rewrite list_lookup_middle; [done|]. rewrite length_app. simpl. lia.
Qed.

(** Assigning both loop variables, which are the two newest cells. *)
Lemma store_loop_vars (h : heap) (a b k v : string) :
  store (S (length h)) v (store (length h) k (h ++ [a; b])) = h ++ [k; v].
Proof.
  unfold store.
  replace (length h) with (length h + 0) at 2 by lia.
  rewrite insert_app_r. simpl.
  replace (S (length h)) with (length h + 1) by lia.
  by rewrite insert_app_r.
Qed.

Lemma viewMetric_app_l (h ext : heap) (m : Metric LabelPair) :
  wfMetric h m → viewMetric (h ++ ext) m = viewMetric h m.
Proof.
  unfold wfMetric, viewMetric. intros Hwf. f_equal.
  induction Hwf as [|p ps [Hn Hv] _ IH]; [done|].
  rewrite !fmap_cons. rewrite IH. f_equal.
  unfold viewPair. by rewrite !load_app_l.
Qed.

(** ** [addLabels]: what the label loop leaves behind *)

Section AddLabelsFacts.

Variable rangeLabels : gmap string string → loc → list (string * string).

(** Run with its variables in the two newest cells, the loop appends one
    pair per entry, every pair holding the addresses of those two cells,
    and leaves the last entry in them. *)
Lemma labelLoop_spec (kvs : list (string * string)) :
  ∀ (m : Metric LabelPair) (h : heap) (a b : string),
    labelLoop kvs (length h) (S (length h)) m (h ++ [a; b]) =
    ({| mLabel := mLabel m ++
          replicate (length kvs)
            {| lpName := length h; lpValue := S (length h) |};
        mData := mData m |},
     h ++ [(default (a, b) (last kvs)).1; (default (a, b) (last kvs)).2]).
Proof.
  induction kvs as [|[k v] rest IH]; intros m h a b.
  - simpl. destruct m as [ls d]. simpl. by rewrite app_nil_r.
  - cbn [labelLoop]. rewrite store_loop_vars, IH. cbn [mLabel mData length].
    f_equal.
    + f_equal. rewrite <- app_assoc. done.
    + rewrite last_cons. by destruct (last rest).
Qed.

Lemma addLabelsMetric_spec (labels : gmap string string)
    (m : Metric LabelPair) (h : heap) :
  let kvs := rangeLabels labels (length h) in
  addLabelsMetric rangeLabels labels m h =
  ({| mLabel := mLabel m ++
        replicate (length kvs)
          {| lpName := length h; lpValue := S (length h) |};
      mData := mData m |},
   h ++ [(lastEntry kvs).1; (lastEntry kvs).2]).
Proof.
  intros kvs. unfold addLabelsMetric, alloc.
  rewrite length_app. simpl length.
  replace (length h + 1) with (S (length h)) by lia.
  rewrite <- app_assoc. simpl app. by rewrite labelLoop_spec.
Qed.

(** Every pair the loop appended to a sample reads as the entry that the
    runtime enumerated last: with [n] entries in the label set, the
    sample gains [n] copies of that one entry. *)
Lemma addLabelsMetric_view (labels : gmap string string)
    (m : Metric LabelPair) (h : heap) :
  wfMetric h m →
  rangeLabels labels (length h) ≡ₚ map_to_list labels →
  let r := addLabelsMetric rangeLabels labels m h in
  mLabel (viewMetric r.2 r.1) =
  mLabel (viewMetric h m) ++
  replicate (size labels) (lastEntry (rangeLabels labels (length h))).
Proof.
  intros Hwf Hperm r. subst r. rewrite addLabelsMetric_spec. cbn [fst snd].
  unfold viewMetric at 1. cbn [mLabel].
  rewrite fmap_app, fmap_replicate.
  f_equal.
  - pose proof (viewMetric_app_l h
      [(lastEntry (rangeLabels labels (length h))).1;
       (lastEntry (rangeLabels labels (length h))).2] m Hwf) as Hv.
    unfold viewMetric in Hv. by injection Hv.
  - f_equal.
    + apply Permutation_length in Hperm.
      by rewrite Hperm, length_map_to_list.
    + unfold viewPair. cbn [lpName lpValue].
      rewrite load_fresh_0, load_fresh_1. by destruct (lastEntry _).
Qed.

End AddLabelsFacts.

(** ** [addLabels]: every sample of every family *)

Lemma wfMetric_app_l (h ext : heap) (m : Metric LabelPair) :
  wfMetric h m → wfMetric (h ++ ext) m.
Proof.
  unfold wfMetric. intros Hwf. eapply Forall_impl; [exact Hwf|].
  intros p [Hn Hv]. rewrite length_app. lia.
Qed.

Lemma injected_app_l (labels : gmap string string) (h h' ext : heap)
    (m m' : Metric LabelPair) :
  injected labels h m h' m' → injected labels h m (h' ++ ext) m'.
Proof.
  intros (Hwf & Hdata & e & He & Hview). split; [by apply wfMetric_app_l|].
  split; [done|]. exists e. split; [done|]. by rewrite viewMetric_app_l.
Qed.

(** The entry a loop ends on is an entry of the label set. *)
Lemma lastEntry_entry (labels : gmap string string) (kvs : list (string * string)) :
  kvs ≡ₚ map_to_list labels →
  labels = ∅ ∨ lastEntry kvs ∈ map_to_list labels.
Proof.
  intros Hperm. unfold lastEntry. destruct (last kvs) as [e|] eqn:Hlast.
  - right. rewrite <- Hperm. by apply last_Some_elem_of.
  - left. apply last_None in Hlast. subst kvs.
    apply Permutation_nil_l in Hperm. by apply map_to_list_empty_iff.
Qed.

Section AddLabelsView.

Variable rangeLabels : gmap string string → loc → list (string * string).
Variable rangeFamilies :
  gmap string (MetricFamily LabelPair) → list (string * MetricFamily LabelPair).
Variable labels : gmap string string.
Hypothesis rangeLabels_enumerates : ∀ l, rangeLabels labels l ≡ₚ map_to_list labels.
Hypothesis rangeFamilies_enumerates : ∀ mp, rangeFamilies mp ≡ₚ map_to_list mp.

Lemma addLabelsMetric_injected (h0 ext0 : heap) (m : Metric LabelPair) :
  wfMetric h0 m →
  ∃ m' k v, addLabelsMetric rangeLabels labels m (h0 ++ ext0)
            = (m', (h0 ++ ext0) ++ [k; v])
          ∧ injected labels h0 m ((h0 ++ ext0) ++ [k; v]) m'.
Proof.
  intros Hwf. rewrite addLabelsMetric_spec.
  set (kvs := rangeLabels labels (length (h0 ++ ext0))).
  eexists _, _, _. split; [done|].
  assert (wfMetric (h0 ++ ext0) m) as Hwf' by by apply wfMetric_app_l.
  split; [|split; [done|]].
  - unfold wfMetric. cbn [mLabel]. apply Forall_app. split.
    + by apply (wfMetric_app_l (h0 ++ ext0)).
    + apply Forall_replicate. cbn [lpName lpValue].
      rewrite !length_app. simpl. lia.
  - exists (lastEntry kvs). split.
    { apply lastEntry_entry. subst kvs. apply rangeLabels_enumerates. }
    unfold viewMetric at 1. cbn [mLabel].
    rewrite fmap_app, fmap_replicate. f_equal.
    + pose proof (viewMetric_app_l (h0 ++ ext0)
        [(lastEntry kvs).1; (lastEntry kvs).2] m Hwf') as Hv.
      rewrite (viewMetric_app_l h0 ext0 m Hwf) in Hv.
      unfold viewMetric in Hv. by injection Hv.
    + f_equal.
      * pose proof (rangeLabels_enumerates (length (h0 ++ ext0))) as Hp.
        apply Permutation_length in Hp. fold kvs in Hp.
        by rewrite Hp, length_map_to_list.
      * unfold viewPair. cbn [lpName lpValue].
        rewrite load_fresh_0, load_fresh_1. by destruct (lastEntry kvs).
Qed.

Lemma addLabelsMetrics_injected (ms : list (Metric LabelPair)) :
  ∀ (h0 ext0 : heap),
    Forall (wfMetric h0) ms →
    ∃ ms' ext, addLabelsMetrics rangeLabels labels ms (h0 ++ ext0)
               = (ms', (h0 ++ ext0) ++ ext)
             ∧ Forall2 (λ m m', injected labels h0 m ((h0 ++ ext0) ++ ext) m')
                 ms ms'.
Proof.
  induction ms as [|m ms IH]; intros h0 ext0 Hwf.
  - exists [], []. cbn [addLabelsMetrics]. by rewrite app_nil_r.
  - apply Forall_cons in Hwf as [Hm Hms]. cbn [addLabelsMetrics].
    destruct (addLabelsMetric_injected h0 ext0 m Hm) as (m' & k & v & -> & Hinj).
    destruct (IH h0 (ext0 ++ [k; v]) Hms) as (ms' & ext & Hrun & Hall).
    rewrite app_assoc in Hrun, Hall. rewrite Hrun.
    exists (m' :: ms'), ([k; v] ++ ext). rewrite (app_assoc _ [k; v] ext).
    split; [done|]. constructor; [|done]. by apply injected_app_l.
Qed.

Lemma injectedFamily_app_l (h h' ext : heap) (mf mf' : MetricFamily LabelPair) :
  injectedFamily labels h mf h' mf' → injectedFamily labels h mf (h' ++ ext) mf'.
Proof.
  intros (? & ? & ? & Hall). repeat split; [done..|].
  eapply Forall2_impl; [exact Hall|]. intros m m'. apply injected_app_l.
Qed.

Lemma addLabelsFamily_injected (h0 ext0 : heap) (mf : MetricFamily LabelPair) :
  Forall (wfMetric h0) (mfMetric mf) →
  ∃ mf' ext, addLabelsFamily rangeLabels labels mf (h0 ++ ext0)
             = (mf', (h0 ++ ext0) ++ ext)
           ∧ injectedFamily labels h0 mf ((h0 ++ ext0) ++ ext) mf'.
Proof.
  intros Hwf. unfold addLabelsFamily.
  destruct (addLabelsMetrics_injected (mfMetric mf) h0 ext0 Hwf)
    as (ms' & ext & -> & Hall).
  eexists _, ext. split; [done|]. by repeat split.
Qed.

Lemma familyLoop_injected (kfs : list (string * MetricFamily LabelPair)) :
  ∀ (mp : gmap string (MetricFamily LabelPair)) (h0 ext0 : heap),
    NoDup kfs.*1 →
    Forall (λ kf, Forall (wfMetric h0) (mfMetric kf.2)) kfs →
    ∃ mp' ext, familyLoop rangeLabels labels kfs mp (h0 ++ ext0)
               = (mp', (h0 ++ ext0) ++ ext)
             ∧ (∀ k, k ∉ kfs.*1 → mp' !! k = mp !! k)
             ∧ (∀ k mf, (k, mf) ∈ kfs →
                  ∃ mf', mp' !! k = Some mf'
                       ∧ injectedFamily labels h0 mf ((h0 ++ ext0) ++ ext) mf').
Proof.
  induction kfs as [|[k mf] kfs IH]; intros mp h0 ext0 Hnd Hwf.
  - exists mp, []. cbn [familyLoop]. rewrite app_nil_r.
    split; [done|]. split; [done|]. intros k mf Hin.
    by apply elem_of_nil in Hin.
  - rewrite fmap_cons in Hnd. apply NoDup_cons in Hnd as [Hk Hnd].
    apply Forall_cons in Hwf as [Hmf Hwf]. cbn [fst snd] in Hk, Hmf.
    cbn [familyLoop].
    destruct (addLabelsFamily_injected h0 ext0 mf Hmf)
      as (mf1 & ext1 & -> & Hinj).
    destruct (IH (<[k := mf1]> mp) h0 (ext0 ++ ext1) Hnd Hwf)
      as (mp' & ext & Hrun & Hout & Hin).
    rewrite app_assoc in Hrun, Hin. rewrite Hrun.
    exists mp', (ext1 ++ ext). rewrite (app_assoc _ ext1 ext).
    split; [done|]. split.
    + intros k' Hk'. rewrite fmap_cons in Hk'. cbn [fst] in Hk'.
      apply not_elem_of_cons in Hk' as [Hne Hk'].
      rewrite (Hout k' Hk'). by rewrite lookup_insert_ne.
    + intros k' mf' Hel. apply elem_of_cons in Hel as [Heq|Hel].
      * injection Heq as -> ->. exists mf1.
        rewrite (Hout k Hk), lookup_insert_eq. split; [done|].
        by apply injectedFamily_app_l.
      * by apply Hin.
Qed.

(** For every decoded map whose label pairs live in [h], and whatever the
    orders of enumeration: [addLabels] keeps the keys of the map and the
    name, help and type of every family, and every sample of every family
    gains, for a label set of [n] entries, [n] pairs that all read as one
    and the same entry of the set (the one its loop enumerated last). *)
Lemma addLabels_injected (mp : gmap string (MetricFamily LabelPair)) (h : heap) :
  map_Forall (λ _ mf, Forall (wfMetric h) (mfMetric mf)) mp →
  ∃ mp' ext,
    addLabels rangeLabels rangeFamilies (Some mp) labels h = (Some mp', h ++ ext)
    ∧ ∀ k, match mp !! k with
           | Some mf => ∃ mf', mp' !! k = Some mf'
                             ∧ injectedFamily labels h mf (h ++ ext) mf'
           | None => mp' !! k = None
           end.
Proof.
  intros Hwf. cbn [addLabels].
  pose proof (rangeFamilies_enumerates mp) as Hperm.
  destruct (familyLoop_injected (rangeFamilies mp) mp h [])
    as (mp' & ext & Hrun & Hout & Hin).
  { rewrite Hperm. apply NoDup_fst_map_to_list. }
  { apply Forall_forall. intros [k mf] Hel. rewrite Hperm in Hel.
    apply elem_of_map_to_list in Hel. by apply (Hwf k mf). }
  rewrite app_nil_r in Hrun, Hin. rewrite Hrun.
  exists mp', ext. split; [done|]. intros k.
  destruct (mp !! k) as [mf|] eqn:Hk.
  - apply Hin. rewrite Hperm. by apply elem_of_map_to_list.
  - rewrite Hout; [done|]. intros Hel.
    apply list_elem_of_fmap in Hel as ([k' mf] & -> & Hel).
    rewrite Hperm in Hel. apply elem_of_map_to_list in Hel.
    cbn [fst] in Hk. congruence.
Qed.

End AddLabelsView.

(** With a label set of one entry the defect does not show: the sample
    gains exactly that entry. *)
Lemma injected_singleton (k v : string) (h h' : heap) (m m' : Metric LabelPair) :
  injected {[ k := v ]} h m h' m' →
  mLabel (viewMetric h' m') = mLabel (viewMetric h m) ++ [(k, v)].
Proof.
  intros (_ & _ & e & He & ->). rewrite map_size_singleton. cbn [replicate].
  destruct He as [He|He].
  - by apply map_non_empty_singleton in He.
  - rewrite map_to_list_singleton in He. apply list_elem_of_singleton in He.
    by subst e.
Qed.

(** With two entries or more, the pairs a sample gained are not the entries
    of the label set: they are all equal. *)
Lemma injected_repeats (labels : gmap string string) (h h' : heap)
    (m m' : Metric LabelPair) :
  injected labels h m h' m' →
  ∃ e, drop (length (mLabel m)) (mLabel (viewMetric h' m'))
       = replicate (size labels) e.
Proof.
  intros (_ & _ & e & _ & ->). exists e.
  unfold viewMetric. cbn [mLabel].
  rewrite drop_app_length'; [done|]. by rewrite length_fmap.
Qed.

(** Both orders enumerate the label set [twoLabels]. *)
Lemma twoLabels_entries : map_to_list twoLabels = [("a", "1"); ("b", "2")].
Proof. by vm_compute. Qed.

Lemma orderAB_enumerates (l : loc) : orderAB twoLabels l ≡ₚ map_to_list twoLabels.
Proof. by rewrite twoLabels_entries. Qed.

Lemma orderBA_enumerates (l : loc) : orderBA twoLabels l ≡ₚ map_to_list twoLabels.
Proof. rewrite twoLabels_entries. apply perm_swap. Qed.

(** The two runs, evaluated. *)
Lemma addLabels_two_labels_repeat_last_aux :
  labelsOf (addLabels orderAB map_to_list upDecoded twoLabels upHeap) "up"
    = [[("job", "x"); ("b", "2"); ("b", "2")]]
  ∧ labelsOf (addLabels orderBA map_to_list upDecoded twoLabels upHeap) "up"
    = [[("job", "x"); ("a", "1"); ("a", "1")]].
Proof. split; by vm_compute. Qed.

(** C1 (evaluation at the failing input).  Target labels [a="1", b="2"]
    and the decoded family [up{job="x"} 1]: after [addLabels] the sample
    carries its own pair followed by two copies of the entry enumerated
    last, [b="2", b="2"] for the order a, b and [a="1", a="1"] for the
    order b, a; in neither order one pair per entry with that entry's
    name and value. *)
Theorem addLabels_two_labels_repeat_last :
  labelsOf (addLabels orderAB map_to_list upDecoded twoLabels upHeap) "up"
    = [[("job", "x"); ("b", "2"); ("b", "2")]]
  ∧ labelsOf (addLabels orderBA map_to_list upDecoded twoLabels upHeap) "up"
    = [[("job", "x"); ("a", "1"); ("a", "1")]].
Proof. split; by vm_compute. Qed.

(** C2 (evaluation at the failing input).  For the same target and
    family, the label pairs attached to the sample under the enumeration
    a, b and under the enumeration b, a are not the same multiset. *)
Theorem addLabels_order_dependent :
  ¬ Forall2 (≡ₚ)
      (labelsOf (addLabels orderAB map_to_list upDecoded twoLabels upHeap) "up")
      (labelsOf (addLabels orderBA map_to_list upDecoded twoLabels upHeap) "up").
Proof.
  destruct addLabels_two_labels_repeat_last_aux as [-> ->].
  intros H. apply Forall2_cons_1 in H as [H _].
  assert (("a", "1") ∈ [("job", "x"); ("b", "2"); ("b", "2")]) as Hin.
  { rewrite H. apply list_elem_of_further, list_elem_of_here. }
  repeat (apply elem_of_cons in Hin as [Hin|Hin]; [discriminate Hin|]).
  by apply elem_of_nil in Hin.
Qed.

(** ** The aggregator *)

Section AggregatorFacts.

Context {P : Type}.
Variable rangeMap :
  gmap string (MetricFamily P) → list (string * MetricFamily P).
Hypothesis rangeMap_enumerates : ∀ m, rangeMap m ≡ₚ map_to_list m.

Implicit Types (all m : gmap string (MetricFamily P)) (n k : string).
Implicit Types (r : gomap (MetricFamily P)) (mf : MetricFamily P).

Lemma mergeEntry_None_r (o : option (MetricFamily P)) : mergeEntry o None = o.
Proof. by destruct o. Qed.

Lemma mergeFamily_lookup all k mf n :
  mfName mf = k →
  mergeFamily all k mf !! n =
  if decide (k = n) then mergeEntry (all !! k) (Some mf) else all !! n.
Proof.
  intros Hk. unfold mergeFamily.
  destruct (all !! k) as [amf|] eqn:Hall; rewrite ?Hk, lookup_insert;
    case_decide; done.
Qed.

(** The loop over an enumeration without repeated keys. *)
Lemma merge_entries_lookup (l : list (string * MetricFamily P)) :
  ∀ all n,
    NoDup l.*1 →
    Forall (λ kv, mfName kv.2 = kv.1) l →
    foldl (λ acc kv, mergeFamily acc kv.1 kv.2) all l !! n =
    mergeEntry (all !! n) ((list_to_map l : gmap string (MetricFamily P)) !! n).
Proof.
  induction l as [|[k mf] l IH]; intros all n Hnd Hkeys.
  - simpl. by rewrite lookup_empty, mergeEntry_None_r.
  - rewrite fmap_cons in Hnd. apply NoDup_cons in Hnd as [Hk Hnd].
    apply Forall_cons in Hkeys as [Hmf Hkeys]. simpl in Hmf, Hk.
    cbn [foldl fst snd]. rewrite IH by done.
    rewrite mergeFamily_lookup by done.
    rewrite list_to_map_cons, lookup_insert.
    case_decide as Hkn.
    + subst n. apply not_elem_of_list_to_map_1 in Hk. rewrite Hk.
      by rewrite mergeEntry_None_r.
    + done.
Qed.

(** One received result, merged: name by name. *)
Lemma mergeResult_lookup all r n :
  keyed (entries r) →
  mergeResult rangeMap all r !! n = mergeEntry (all !! n) (entries r !! n).
Proof.
  intros Hkeyed. unfold mergeResult.
  assert (NoDup (rangeMap (entries r)).*1) as Hnd.
  { rewrite (rangeMap_enumerates _). apply NoDup_fst_map_to_list. }
  rewrite merge_entries_lookup.
  - by rewrite (list_to_map_proper _ _ Hnd (rangeMap_enumerates _)),
      list_to_map_to_list.
  - done.
  - apply Forall_forall. intros [k mf] Hin. simpl.
    rewrite (rangeMap_enumerates _) in Hin.
    apply elem_of_map_to_list in Hin. by apply Hkeyed.
Qed.

Lemma foldl_mergeResult_lookup (rs : list (gomap (MetricFamily P))) :
  ∀ all n,
    Forall (λ r, keyed (entries r)) rs →
    foldl (mergeResult rangeMap) all rs !! n =
    foldl mergeEntry (all !! n) ((λ r, entries r !! n) <$> rs).
Proof.
  induction rs as [|r rs IH]; intros all n Hk; [done|].
  apply Forall_cons in Hk as [Hr Hrs].
  cbn [foldl fmap list_fmap]. rewrite IH by done.
  by rewrite mergeResult_lookup.
Qed.

Lemma aggregate_lookup (rs : list (gomap (MetricFamily P))) n :
  Forall (λ r, keyed (entries r)) rs →
  aggregate rangeMap rs !! n =
  foldl mergeEntry None ((λ r, entries r !! n) <$> rs).
Proof.
  intros Hk. unfold aggregate.
  by rewrite foldl_mergeResult_lookup, lookup_empty.
Qed.

(** Every family of the merged map sits under its own name, whatever the
    received maps are: the handler inserts under [*mf.Name] only. *)
Lemma mergeFamily_keyed all k mf : keyed all → keyed (mergeFamily all k mf).
Proof.
  intros Hall k' mf'. unfold mergeFamily.
  destruct (all !! k) as [amf|] eqn:Hk.
  - rewrite lookup_insert_Some. intros [[<- <-]|[_ ?]]; [|by apply Hall].
    simpl. by apply Hall.
  - rewrite lookup_insert_Some. intros [[<- <-]|[_ ?]]; [done|by apply Hall].
Qed.

Lemma aggregate_keyed (rs : list (gomap (MetricFamily P))) :
  keyed (aggregate rangeMap rs).
Proof.
  unfold aggregate.
  assert (∀ all, keyed all → keyed (foldl (mergeResult rangeMap) all rs)) as H.
  { induction rs as [|r rs IH]; intros all Hall; [done|].
    simpl. apply IH. unfold mergeResult.
    generalize (rangeMap (entries r)). intros l. revert all Hall.
    induction l as [|[k mf] l IHl]; intros all Hall; [done|].
    simpl. apply IHl. by apply mergeFamily_keyed. }
  apply H. intros k mf. by rewrite lookup_empty.
Qed.

(** The number of samples under a name after a fold of [mergeEntry]. *)
Lemma foldl_mergeEntry_count (os : list (option (MetricFamily P))) :
  ∀ o, length (from_option mfMetric [] (foldl mergeEntry o os)) =
       length (from_option mfMetric [] o) +
       sum_list_with (λ o', length (from_option mfMetric [] o')) os.
Proof.
  induction os as [|o' os IH]; intros o; cbn [foldl sum_list_with]; [lia|].
  rewrite IH. destruct o as [amf|], o' as [mf|]; simpl;
    rewrite ?length_app; lia.
Qed.

(** The family kept under a name that is already present: metadata of
    the kept family, samples of the later families appended in order. *)
Lemma foldl_mergeEntry_Some (os : list (option (MetricFamily P))) :
  ∀ f, ∃ g, foldl mergeEntry (Some f) os = Some g
          ∧ mfName g = mfName f ∧ mfHelp g = mfHelp f ∧ mfType g = mfType f
          ∧ mfMetric g = mfMetric f ++ concat (from_option mfMetric [] <$> os).
Proof.
  induction os as [|o os IH]; intros f.
  - exists f. simpl. by rewrite app_nil_r.
  - destruct o as [mf|]; simpl.
    + destruct (IH {| mfName := mfName f; mfHelp := mfHelp f;
                      mfType := mfType f;
                      mfMetric := mfMetric f ++ mfMetric mf |})
        as (g & -> & ? & ? & ? & Hm).
      exists g. simpl in *. by rewrite Hm, <- app_assoc.
    + destruct (IH f) as (g & -> & ? & ? & ? & Hm). by exists g.
Qed.

Lemma foldl_mergeEntry_None (os : list (option (MetricFamily P))) :
  Forall (λ o, o = None) os → foldl mergeEntry None os = None.
Proof. induction 1 as [|o os -> _ IH]; [done|]. by simpl. Qed.

(** C4.  For every family name and every list of per-target decoded
    results, in whatever order they are received and whatever order the
    maps are enumerated in, the number of samples the merged map holds
    under the name is the sum over the results of the number of samples
    each holds under it (none for a result without the name). *)
Theorem aggregate_sample_count (rs : list (gomap (MetricFamily P))) n :
  Forall (λ r, keyed (entries r)) rs →
  sampleCount (aggregate rangeMap rs) n =
  sum_list_with (λ r, sampleCount (entries r) n) rs.
Proof.
  intros Hk. unfold sampleCount at 1. rewrite aggregate_lookup by done.
  pose proof (foldl_mergeEntry_count ((λ r, entries r !! n) <$> rs) None) as H.
  cbn [from_option length] in H.
  transitivity (length (from_option mfMetric []
                  (foldl mergeEntry None ((λ r, entries r !! n) <$> rs)))).
  { by destruct (foldl mergeEntry None _). }
  rewrite H, Nat.add_0_l. clear H. induction rs as [|r rs IH]; [done|].
  apply Forall_cons in Hk as [_ Hk].
  cbn [fmap list_fmap sum_list_with]. rewrite IH by done.
  unfold sampleCount. by destruct (entries r !! n).
Qed.

(** C7.  When the results processed before [r] lack the name and [r]
    holds family [f] under it, the merged family has the name, help text
    and type of [f]; the results processed after [r] contribute their
    samples under the name, in order, and nothing else. *)
Theorem aggregate_first_metadata
    (pre post : list (gomap (MetricFamily P))) r f n :
  Forall (λ r', keyed (entries r')) (pre ++ r :: post) →
  Forall (λ r', entries r' !! n = None) pre →
  entries r !! n = Some f →
  ∃ g, aggregate rangeMap (pre ++ r :: post) !! n = Some g
     ∧ mfName g = mfName f ∧ mfHelp g = mfHelp f ∧ mfType g = mfType f
     ∧ mfMetric g = mfMetric f ++ concat ((λ r', samplesOf r' n) <$> post).
Proof.
  intros Hk Hpre Hr. rewrite aggregate_lookup by done.
  rewrite fmap_app, foldl_app, fmap_cons.
  rewrite foldl_mergeEntry_None.
  2:{ apply Forall_fmap. eapply Forall_impl; [exact Hpre|]. done. }
  cbn [foldl]. rewrite Hr. cbn [mergeEntry].
  destruct (foldl_mergeEntry_Some ((λ r', entries r' !! n) <$> post) f)
    as (g & Hg & ? & ? & ? & Hm).
  exists g. repeat split; try done.
  rewrite Hm. f_equal. f_equal. rewrite <- list_fmap_compose. done.
Qed.

End AggregatorFacts.

(** ** Strings *)

Lemma append_nil_r (s : string) : s +:+ EmptyString = s.
Proof.
  induction s as [|a s IH]; [done|].
  change (String a (s +:+ EmptyString) = String a s). by rewrite IH.
Qed.

Lemma append_assoc (s1 s2 s3 : string) : (s1 +:+ s2) +:+ s3 = s1 +:+ s2 +:+ s3.
Proof.
  induction s1 as [|a s1 IH]; [done|].
  change (String a ((s1 +:+ s2) +:+ s3) = String a (s1 +:+ s2 +:+ s3)).
  by rewrite IH.
Qed.

(** [s1 < s2] fails exactly when [s2 ≤ s1]. *)
Lemma ltb_false_le (s1 s2 : string) :
  String.ltb s1 s2 = false ↔ String.le s2 s1.
Proof.
  unfold String.le, String.ltb, String.leb.
  rewrite (String.compare_antisym s1 s2).
  destruct (String.compare s2 s1); simpl; split; intros H; done.
Qed.

Lemma ltb_irrefl (s : string) : String.ltb s s = false.
Proof. apply ltb_false_le. reflexivity. Qed.

Lemma ltb_true_le_ne (s1 s2 : string) :
  String.ltb s1 s2 = true ↔ String.le s1 s2 ∧ s1 ≠ s2.
Proof.
  split.
  - intros Hlt. split.
    + destruct (total String.le s1 s2) as [|Hle]; [done|].
      apply ltb_false_le in Hle. congruence.
    + intros ->. rewrite ltb_irrefl in Hlt. done.
  - intros [Hle Hne]. destruct (String.ltb s1 s2) eqn:Hlt; [done|].
    apply ltb_false_le in Hlt. destruct Hne. by apply (anti_symm String.le).
Qed.

(** ** The response writer *)

Lemma body_flush (bs : string) (w : ResponseWriter) :
  body (flush bs w) = body w +:+ bs.
Proof.
  unfold flush. case_decide as Hbs; [|done]. subst bs. by rewrite append_nil_r.
Qed.

Lemma finish_flush (bs : string) (w : ResponseWriter) :
  status (finish (flush bs w)) = status (finish w).
Proof. unfold flush. case_decide; [done|]. simpl. by destruct (status w). Qed.

Lemma status_finish_new : status (finish newResponse) = Some 200.
Proof. done. Qed.

(** ** The serializer *)

(** A list without repeated images holds no two elements with one image. *)
Lemma NoDup_fmap_eq {A B} (f : A → B) (l : list A) (x y : A) :
  NoDup (f <$> l) → x ∈ l → y ∈ l → f x = f y → x = y.
Proof.
  induction l as [|a l IH]; intros Hnd Hx Hy Hf; [by apply elem_of_nil in Hx|].
  rewrite fmap_cons in Hnd. apply NoDup_cons in Hnd as [Ha Hnd].
  apply elem_of_cons in Hx as [->|Hx]; apply elem_of_cons in Hy as [->|Hy].
  - done.
  - destruct Ha. rewrite Hf. by apply list_elem_of_fmap_2.
  - destruct Ha. rewrite <- Hf. by apply list_elem_of_fmap_2.
  - by apply IH.
Qed.

Section SerializerFacts.

Context {P : Type}.
Variable MetricFamilyToText : MetricFamily P → string * option error.

Implicit Types (lst : list (MetricFamily P)) (wd : world P).
Implicit Types (a b mf : MetricFamily P).

Lemma notAfter_le a b : notAfter a b ↔ String.le (mfName a) (mfName b).
Proof. unfold notAfter, less. apply ltb_false_le. Qed.

Lemma notAfter_total : Total (@notAfter P).
Proof.
  intros a b. rewrite !notAfter_le. apply (total String.le).
Qed.

Lemma notAfter_trans : Transitive (@notAfter P).
Proof.
  intros a b c. rewrite !notAfter_le. apply (transitivity (R := String.le)).
Qed.

#[local] Existing Instance notAfter_total.
#[local] Existing Instance notAfter_trans.

Lemma sortSlice_perm lst : sortSlice lst ≡ₚ lst.
Proof. apply merge_sort_Permutation. Qed.

Lemma sortSlice_sorted lst : StronglySorted notAfter (sortSlice lst).
Proof. apply (StronglySorted_merge_sort notAfter). Qed.

(** With pairwise distinct names the result of a sort by [less] is
    determined: whatever algorithm [sort.Slice] runs, stable or not, it
    returns [sortSlice lst]. *)
Lemma sorted_by_less_unique lst lst' :
  NoDup (mfName <$> lst) →
  lst' ≡ₚ lst → StronglySorted notAfter lst' → lst' = sortSlice lst.
Proof.
  intros Hnd Hperm Hsorted.
  apply (StronglySorted_unique_strong notAfter);
    [|done|apply sortSlice_sorted|by rewrite sortSlice_perm].
  intros x1 x2 Hx1 Hx2 H12 H21.
  rewrite Hperm in Hx1. rewrite sortSlice_perm in Hx2.
  apply (NoDup_fmap_eq mfName lst); [done..|].
  apply notAfter_le in H12. apply notAfter_le in H21.
  by apply (anti_symm String.le).
Qed.

Lemma sortSlice_order_independent lst1 lst2 :
  NoDup (mfName <$> lst1) → lst1 ≡ₚ lst2 → sortSlice lst1 = sortSlice lst2.
Proof.
  intros Hnd Hperm. symmetry. apply sorted_by_less_unique.
  - done.
  - by rewrite sortSlice_perm.
  - apply sortSlice_sorted.
Qed.

Lemma sorted_distinct_ascending lst :
  NoDup (mfName <$> lst) → StronglySorted notAfter lst → ascending lst.
Proof.
  unfold ascending. induction lst as [|a lst IH]; intros Hnd Hs.
  - constructor.
  - rewrite fmap_cons in Hnd. apply NoDup_cons in Hnd as [Ha Hnd].
    apply StronglySorted_cons in Hs as [Hall Hs].
    constructor; [by apply IH|].
    apply Forall_forall. intros b Hb.
    rewrite Forall_forall in Hall. specialize (Hall b Hb).
    unfold less. apply ltb_true_le_ne. split; [by apply notAfter_le|].
    intros Heq. destruct Ha. rewrite Heq. by apply list_elem_of_fmap_2.
Qed.

Lemma sortSlice_ascending lst :
  NoDup (mfName <$> lst) → ascending (sortSlice lst).
Proof.
  intros Hnd. apply sorted_distinct_ascending; [|apply sortSlice_sorted].
  by rewrite sortSlice_perm.
Qed.

(** The families of a keyed map have pairwise distinct names. *)
Lemma keyed_NoDup_names (m : gmap string (MetricFamily P)) :
  keyed m → NoDup (mfName <$> (map_to_list m).*2).
Proof.
  intros Hk.
  assert (mfName <$> (map_to_list m).*2 = (map_to_list m).*1) as ->.
  { rewrite <- list_fmap_compose. apply list_fmap_ext.
    intros _ [k mf] Hin%list_elem_of_lookup_2. simpl.
    apply elem_of_map_to_list in Hin. by apply Hk. }
  apply NoDup_fst_map_to_list.
Qed.

(** *** The encode loop *)

Lemma encodeLoop_accepted lst :
  ∀ wd, Forall (accepted MetricFamilyToText) lst →
    ∃ wd', encodeLoop MetricFamilyToText lst wd = (wd', None)
         ∧ encoded wd' = encoded wd ++ lst
         ∧ body (resp wd') = body (resp wd) +:+ bytesOf MetricFamilyToText lst
         ∧ status (finish (resp wd')) = status (finish (resp wd))
         ∧ logs wd' = logs wd.
Proof.
  induction lst as [|mf lst IH]; intros wd Hacc.
  - exists wd. simpl. by rewrite app_nil_r, append_nil_r.
  - apply Forall_cons in Hacc as [Hmf Hacc]. unfold accepted in Hmf.
    cbn [encodeLoop]. unfold Encode.
    destruct (MetricFamilyToText mf) as [bs err] eqn:Henc. simpl in Hmf.
    subst err.
    destruct (IH {| resp := flush bs (resp wd); encoded := encoded wd ++ [mf];
                    logs := logs wd |} Hacc)
      as (wd' & -> & Henc' & Hbody & Hstatus & Hlogs).
    exists wd'. cbn [resp encoded logs] in *.
    rewrite Henc', Hbody, Hstatus, Hlogs, body_flush, finish_flush.
    cbn [bytesOf foldr]. rewrite Henc. cbn [fst].
    by rewrite <- app_assoc, append_assoc.
Qed.

Lemma encodeLoop_rejected (pre post : list (MetricFamily P)) mf e :
  ∀ wd, Forall (accepted MetricFamilyToText) pre →
    (MetricFamilyToText mf).2 = Some e →
    ∃ wd', encodeLoop MetricFamilyToText (pre ++ mf :: post) wd = (wd', Some e)
         ∧ encoded wd' = encoded wd ++ pre ++ [mf]
         ∧ body (resp wd') =
             body (resp wd) +:+ bytesOf MetricFamilyToText (pre ++ [mf])
         ∧ status (finish (resp wd')) = status (finish (resp wd))
         ∧ logs wd' = logs wd.
Proof.
  induction pre as [|a pre IH]; intros wd Hacc He.
  - cbn [app encodeLoop]. unfold Encode.
    destruct (MetricFamilyToText mf) as [bs err] eqn:Henc. simpl in He.
    subst err. eexists. split; [done|]. cbn [resp encoded logs].
    rewrite body_flush, finish_flush. cbn [bytesOf foldr]. rewrite Henc.
    cbn [fst]. by rewrite append_nil_r.
  - apply Forall_cons in Hacc as [Ha Hacc]. unfold accepted in Ha.
    cbn [app encodeLoop]. unfold Encode.
    destruct (MetricFamilyToText a) as [bs err] eqn:Henc. simpl in Ha.
    subst err.
    destruct (IH {| resp := flush bs (resp wd); encoded := encoded wd ++ [a];
                    logs := logs wd |} Hacc He)
      as (wd' & -> & Henc' & Hbody & Hstatus & Hlogs).
    exists wd'. cbn [resp encoded logs] in *.
    rewrite Henc', Hbody, Hstatus, Hlogs, body_flush, finish_flush.
    cbn [bytesOf foldr app]. rewrite Henc. cbn [fst].
    by rewrite <- app_assoc, append_assoc.
Qed.

(** Every list is accepted throughout or has a first rejected family. *)
Lemma first_rejected lst :
  Forall (accepted MetricFamilyToText) lst
  ∨ ∃ pre mf post e, lst = pre ++ mf :: post
      ∧ Forall (accepted MetricFamilyToText) pre
      ∧ (MetricFamilyToText mf).2 = Some e.
Proof.
  induction lst as [|a lst [IH|(pre & mf & post & e & -> & Hpre & He)]].
  - by left.
  - destruct (MetricFamilyToText a).2 as [e|] eqn:Ha.
    + right. exists [], a, lst, e. by repeat split.
    + left. by constructor.
  - destruct (MetricFamilyToText a).2 as [e'|] eqn:Ha.
    + right. exists [], a, (pre ++ mf :: post), e'. by repeat split.
    + right. exists (a :: pre), mf, post, e. repeat split; [|done].
      by constructor.
Qed.

(** The calls of the loop, whatever the encoder answers: a prefix of the
    list, the whole list when the loop returns no error. *)
Lemma encodeLoop_calls lst wd :
  ∃ calls, encoded (encodeLoop MetricFamilyToText lst wd).1 = encoded wd ++ calls
         ∧ calls `prefix_of` lst
         ∧ ((encodeLoop MetricFamilyToText lst wd).2 = None → calls = lst).
Proof.
  destruct (first_rejected lst) as [Hacc|(pre & mf & post & e & -> & Hpre & He)].
  - destruct (encodeLoop_accepted lst wd Hacc) as (wd' & -> & Henc & _).
    exists lst. by repeat split.
  - destruct (encodeLoop_rejected pre post mf e wd Hpre He)
      as (wd' & -> & Henc & _).
    exists (pre ++ [mf]). cbn [fst snd]. repeat split; [done| |done].
    exists post. by rewrite <- app_assoc.
Qed.

End SerializerFacts.

Section PipelineFacts.

Context {P : Type}.
Variables rangeMap rangeMap' :
  gmap string (MetricFamily P) → list (string * MetricFamily P).
Variable MetricFamilyToText : MetricFamily P → string * option error.
Hypothesis rangeMap_enumerates : ∀ m, rangeMap m ≡ₚ map_to_list m.
Hypothesis rangeMap'_enumerates : ∀ m, rangeMap' m ≡ₚ map_to_list m.


(** The aggregation loop runs no iteration for a nil map. *)
Lemma mergeResult_nil (all : gmap string (MetricFamily P)) :
  mergeResult rangeMap all None = all.
Proof.
  unfold mergeResult. cbn [entries default from_option].
  pose proof (rangeMap_enumerates ∅) as H. rewrite map_to_list_empty in H.
  apply Permutation_nil_r in H. by rewrite H.
Qed.

Lemma aggregate_skip_nil (rs1 rs2 : list (gomap (MetricFamily P))) :
  aggregate rangeMap (rs1 ++ None :: rs2) = aggregate rangeMap (rs1 ++ rs2).
Proof.
  unfold aggregate. rewrite !foldl_app. cbn [foldl].
  by rewrite mergeResult_nil.
Qed.

Lemma aggregate_all_nil (rs : list (gomap (MetricFamily P))) :
  Forall (λ r, r = None) rs → aggregate rangeMap rs = ∅.
Proof.
  unfold aggregate. generalize (∅ : gmap string (MetricFamily P)).
  induction rs as [|r rs IH]; intros all Hnil; [done|].
  apply Forall_cons in Hnil as [-> Hnil]. cbn [foldl].
  rewrite mergeResult_nil. by apply IH.
Qed.

(** The handler never sets a status: the scraper always sees 200. *)
Lemma collate_status (rs : list (gomap (MetricFamily P))) :
  status (finish (resp (collate rangeMap MetricFamilyToText rs))) = Some 200.
Proof.
  unfold collate, serializeMetrics.
  destruct (first_rejected MetricFamilyToText
              (sortSlice (rangeMap (aggregate rangeMap rs)).*2))
    as [Hacc|(pre & mf & post & e & -> & Hpre & He)].
  - destruct (encodeLoop_accepted MetricFamilyToText _ newWorld Hacc)
      as (wd' & -> & _ & _ & Hst & _).
    by rewrite Hst.
  - destruct (encodeLoop_rejected MetricFamilyToText pre post mf e
                newWorld Hpre He) as (wd' & -> & _ & _ & Hst & _).
    cbn [resp]. by rewrite Hst.
Qed.

(** The serializer on the empty map: no call of the encoder, no byte. *)
Lemma collate_empty (rs : list (gomap (MetricFamily P))) :
  aggregate rangeMap rs = ∅ →
  collate rangeMap MetricFamilyToText rs = newWorld.
Proof.
  intros Hempty. unfold collate, serializeMetrics. rewrite Hempty.
  pose proof (rangeMap_enumerates ∅) as H. rewrite map_to_list_empty in H.
  apply Permutation_nil_r in H. by rewrite H.
Qed.

(** The serializer stopped by the first rejected family. *)
Lemma collate_rejected (rs : list (gomap (MetricFamily P)))
    (pre post : list (MetricFamily P)) (mf : MetricFamily P) (e : error) :
  sortSlice (rangeMap (aggregate rangeMap rs)).*2 = pre ++ mf :: post →
  Forall (accepted MetricFamilyToText) pre →
  (MetricFamilyToText mf).2 = Some e →
  (serializeMetrics rangeMap MetricFamilyToText
     (aggregate rangeMap rs) newWorld).2 = Some e
  ∧ encoded (collate rangeMap MetricFamilyToText rs) = pre ++ [mf]
  ∧ logs (collate rangeMap MetricFamilyToText rs) = [serializeFailedMsg e]
  ∧ finish (resp (collate rangeMap MetricFamilyToText rs))
      = {| status := Some 200;
           body := bytesOf MetricFamilyToText (pre ++ [mf]) |}.
Proof.
  intros Hsorted Hpre He. unfold collate, serializeMetrics. rewrite Hsorted.
  destruct (encodeLoop_rejected MetricFamilyToText pre post mf e
              newWorld Hpre He) as (wd' & -> & Henc & Hbody & Hst & Hlogs).
  cbn [fst snd resp encoded logs]. rewrite Henc, Hlogs.
  repeat split; [done..|].
  unfold finish in *. rewrite Hbody. injection Hst as ->. done.
Qed.

End PipelineFacts.

(** ** The handler *)

Section HandlerFacts.

Variable httpGet : string → httpResult.
Variable TextToMetricFamilies :
  string → heap * gomap (MetricFamily LabelPair) * option error.
Variable rangeLabels : gmap string string → loc → list (string * string).
Variable rangeFamilies :
  gmap string (MetricFamily LabelPair) → list (string * MetricFamily LabelPair).
Variable rangeMap :
  gmap string (MetricFamily (string * string))
  → list (string * MetricFamily (string * string)).
Variable MetricFamilyToText :
  MetricFamily (string * string) → string * option error.
Hypothesis rangeMap_enumerates : ∀ m, rangeMap m ≡ₚ map_to_list m.

Local Abbreviation fetch :=
  (fetchMetrics httpGet TextToMetricFamilies).
Local Abbreviation sentBy :=
  (contribution httpGet TextToMetricFamilies rangeLabels rangeFamilies).
Local Abbreviation mergedOf :=
  (merged httpGet TextToMetricFamilies rangeLabels rangeFamilies rangeMap).
Local Abbreviation handle :=
  (handleMetrics httpGet TextToMetricFamilies rangeLabels rangeFamilies
    rangeMap MetricFamilyToText).
Local Abbreviation scrapeOf :=
  (scrape httpGet TextToMetricFamilies rangeLabels rangeFamilies
    rangeMap MetricFamilyToText).

(** [addLabels] on the nil map: nothing to range over, and the nil map
    is what the task sends. *)
Lemma contribution_nil (t : Target) :
  (fetch (URL t)).1.2 = None → sentBy t = None.
Proof.
  unfold contribution, fetchTask.
  destruct (fetch (URL t)) as [[h mfs] err]. simpl. by intros ->.
Qed.

(** The status code plays no part in [fetchMetrics]. *)
Lemma fetchMetrics_status_ignored (url : string) (code : nat) (b : string) :
  httpGet url = Response code (ReadAll b) →
  fetch url = TextToMetricFamilies b.
Proof. unfold fetchMetrics. by intros ->. Qed.

Lemma scrape_status (arrival : list Target) :
  status (scrapeOf arrival) = Some 200.
Proof. by apply collate_status. Qed.


(** C8.  When the encoder rejects some family of the merged map, let
    [mf] be the first rejected family of the sorted list and [pre] the
    families before it: [serializeMetrics] returns the error of [mf]; the
    encoder was called on [pre] and [mf], once each, and on no family
    after [mf]; the handler logs the error; the response keeps status 200
    and every byte written, those of the rejected family included. *)
Theorem encode_error_stops_serializer (arrival : list Target) :
  (∃ mf, mf ∈ (map_to_list (mergedOf arrival)).*2
         ∧ ¬ accepted MetricFamilyToText mf) →
  ∃ pre mf post e,
    sortSlice (rangeMap (mergedOf arrival)).*2 = pre ++ mf :: post
    ∧ Forall (accepted MetricFamilyToText) pre
    ∧ (MetricFamilyToText mf).2 = Some e
    ∧ (serializeMetrics rangeMap MetricFamilyToText (mergedOf arrival)
         newWorld).2 = Some e
    ∧ encoded (handle arrival) = pre ++ [mf]
    ∧ NoDup (pre ++ mf :: post)
    ∧ logs (handle arrival) = [serializeFailedMsg e]
    ∧ scrapeOf arrival
        = {| status := Some 200;
             body := bytesOf MetricFamilyToText (pre ++ [mf]) |}.
Proof.
  intros (bad & Hin & Hbad).
  assert (sortSlice (rangeMap (mergedOf arrival)).*2
          ≡ₚ (map_to_list (mergedOf arrival)).*2) as Hperm.
  { by rewrite sortSlice_perm, (rangeMap_enumerates _). }
  destruct (first_rejected MetricFamilyToText
              (sortSlice (rangeMap (mergedOf arrival)).*2))
    as [Hacc|(pre & mf & post & e & Hsorted & Hpre & He)].
  { destruct Hbad. rewrite Forall_forall in Hacc. apply Hacc.
    by rewrite Hperm. }
  destruct (collate_rejected rangeMap MetricFamilyToText
              (sentBy <$> arrival) pre post mf e Hsorted Hpre He)
    as (Herr & Henc & Hlogs & Hresp).
  exists pre, mf, post, e. repeat split; [done..| |done|done].
  rewrite <- Hsorted. apply (NoDup_fmap_1 mfName). rewrite Hperm.
  apply keyed_NoDup_names, aggregate_keyed.
Qed.

(** C10.  When the fetch of every target returns the nil map, every task
    sends the nil map, the merged map is empty, the encoder is never
    called, nothing is logged by the handler, and the scraper receives
    status 200 with an empty body. *)
Theorem all_fetches_fail_empty_response (arrival : list Target) :
  Forall (λ t, (fetch (URL t)).1.2 = None) arrival →
  Forall (λ t, sentBy t = None) arrival
  ∧ mergedOf arrival = ∅
  ∧ handle arrival = newWorld
  ∧ scrapeOf arrival = {| status := Some 200; body := EmptyString |}.
Proof.
  intros Hfail.
  assert (Forall (λ t, sentBy t = None) arrival) as Hnil.
  { eapply Forall_impl; [exact Hfail|]. intros t. apply contribution_nil. }
  assert (mergedOf arrival = ∅) as Hempty.
  { apply aggregate_all_nil; [done|]. by apply Forall_fmap. }
  assert (handle arrival = newWorld) as Hh.
  { by apply collate_empty. }
  repeat split; [done..|]. unfold scrape. by rewrite Hh.
Qed.

End HandlerFacts.

(** ** The fan-in *)

Section FanInFacts.

Context {R A : Type}.
Variable N : nat.
Variable res : nat → R.
Variable mergeOne : A → R → A.
Variable emptyAll : A.

Local Abbreviation state := (fanState A).
Local Abbreviation step := (fanStep N res mergeOne).
Local Abbreviation inv := (fanInv N res mergeOne emptyAll).
Local Abbreviation reach := (reachable N res mergeOne emptyAll).

Lemma fanInv_init : inv (fanInit emptyAll).
Proof. unfold fanInv, started, receiveCount. simpl. repeat split; done || lia. Qed.

Lemma fanInv_step (s s' : state) : inv s → step s s' → inv s'.
Proof.
  intros (Hst & Hperm & Hsent & Hlen & Hcnt & Hall) Hstep.
  unfold fanInv, started, receiveCount in *.
  destruct Hstep as [s i Hpc Hi|s Hpc|s i l1 l2 Hf|s i l1 l2 Hs Hcap
                    |s k i rest Hpc Hk Hch|s Hpc]; cbn [pc fetching sending chan
                    allFamilies sent received]; rewrite ?Hpc in *.
  - repeat split; try done; try lia.
    rewrite seq_S. simpl. rewrite <- Permutation_cons_append.
    by apply Permutation_skip.
  - repeat split; try done; lia.
  - repeat split; try done.
    rewrite <- Hperm, Hf. simpl.
    rewrite <- (Permutation_middle (l1 ++ l2) (sending s ++ sent s) i).
    by rewrite <- (Permutation_middle l1 l2 i).
  - repeat split; try done.
    + rewrite <- Hperm, Hs. apply Permutation_app; [done|].
      rewrite <- (Permutation_middle l1 l2 i). simpl.
      by rewrite app_assoc, <- Permutation_cons_append.
    + by rewrite Hsent, app_assoc.
  - repeat split; try done; try lia.
    + by rewrite Hsent, Hch, <- app_assoc.
    + rewrite length_app. simpl. lia.
    + by rewrite fmap_app, foldl_app, Hall.
  - repeat split; try done; lia.
Qed.

Lemma reachable_inv (s : state) : reach s → inv s.
Proof.
  unfold reachable. intros Hr.
  eapply (rtc_ind_r (λ s0, inv s0)); [apply fanInv_init| |exact Hr].
  intros s1 s2 _ Hstep IH. by eapply fanInv_step.
Qed.

(** No goroutine is counted twice among those fetching, sending, sent. *)
Lemma fanInv_NoDup (s : state) :
  inv s → NoDup (fetching s ++ sending s ++ sent s).
Proof. intros (_ & Hperm & _). rewrite Hperm. apply NoDup_seq. Qed.

Lemma fanInv_bound (s : state) :
  inv s → length (fetching s) + length (sending s) + length (sent s) ≤ N.
Proof.
  intros (Hst & Hperm & _). apply Permutation_length in Hperm.
  rewrite !length_app, length_seq in Hperm. lia.
Qed.

(** C9.  In every reachable state the channel, of capacity [N], holds at
    most the messages sent, no goroutine has sent twice, and a goroutine
    standing at its send has not sent yet and finds a free slot: its send
    is enabled whatever the handler has received so far. *)
Theorem send_never_blocks (s : state) :
  reach s →
  capacity N = N
  ∧ NoDup (sent s)
  ∧ length (chan s) ≤ length (sent s)
  ∧ (∀ i, i ∈ sending s → (i ∉ sent s) ∧ length (chan s) < capacity N)
  ∧ ¬ sendBlocked N s.
Proof.
  intros Hinv%reachable_inv.
  pose proof (fanInv_NoDup s Hinv) as Hnd.
  pose proof (fanInv_bound s Hinv) as Hb.
  destruct Hinv as (_ & _ & Hsent & _).
  assert (length (chan s) ≤ length (sent s)) as Hch.
  { rewrite Hsent, length_app. lia. }
  apply NoDup_app in Hnd as (_ & _ & Hnd).
  apply NoDup_app in Hnd as (_ & Hdisj & Hnd).
  assert (sending s ≠ [] → length (chan s) < capacity N) as Hfree.
  { unfold capacity. destruct (sending s); [done|]. simpl in Hb. lia. }
  repeat split; try done.
  - by apply Hdisj.
  - apply Hfree. intros Hnil. rewrite Hnil in H. by apply elem_of_nil in H.
  - unfold sendBlocked. intros [Hne Hfull]. specialize (Hfree Hne). lia.
Qed.

(** Facts shared by the theorems below. *)
Lemma fanInv_sent (s : state) :
  inv s → NoDup (sent s) ∧ (∀ i, i ∈ sent s → i < N).
Proof.
  intros Hinv. pose proof (fanInv_NoDup s Hinv) as Hnd.
  destruct Hinv as (Hst & Hperm & _). split.
  - apply NoDup_app in Hnd as (_ & _ & Hnd).
    by apply NoDup_app in Hnd as (_ & _ & Hnd).
  - intros i Hi.
    assert (i ∈ seq 0 (started N s)) as Hin.
    { rewrite <- Hperm. rewrite !elem_of_app. auto. }
    apply elem_of_seq in Hin. lia.
Qed.

Lemma fanInv_done (s : state) :
  inv s → pc s = Serializing →
  length (received s) = N
  ∧ received s ≡ₚ seq 0 N
  ∧ sent s = received s
  ∧ fetching s = [] ∧ sending s = [] ∧ chan s = []
  ∧ allFamilies s = foldl mergeOne emptyAll (res <$> received s).
Proof.
  intros Hinv Hpc. pose proof (fanInv_bound s Hinv) as Hb.
  destruct Hinv as (Hst & Hperm & Hsent & Hlen & Hcnt & Hall).
  unfold receiveCount, started in *. rewrite Hpc in *.
  assert (length (sent s) = length (received s) + length (chan s)) as Hl
    by by rewrite Hsent, length_app.
  assert (chan s = []) as Hch by (apply length_zero_iff_nil; lia).
  assert (fetching s = []) as Hf by (apply length_zero_iff_nil; lia).
  assert (sending s = []) as Hs by (apply length_zero_iff_nil; lia).
  rewrite Hch, app_nil_r in Hsent.
  rewrite Hf, Hs, Hsent in Hperm. simpl in Hperm.
  by repeat split.
Qed.


(** The handler and the goroutines never stall before the handler is past
    the receive loop: some step is enabled. *)
Lemma fan_in_progress (s : state) :
  reach s → pc s ≠ Serializing → ∃ s', step s s'.
Proof.
  intros Hr Hpc. pose proof (reachable_inv s Hr) as Hinv.
  pose proof (fanInv_bound s Hinv) as Hb.
  destruct Hinv as (Hst & Hperm & Hsent & Hlen & Hcnt & Hall).
  unfold started, receiveCount in *.
  destruct (pc s) as [i|k|] eqn:Hpcs; [| |done].
  - destruct (decide (i = N)) as [->|Hne].
    + eexists. by apply step_started.
    + eexists. apply (step_go _ _ _ s i); [done|lia].
  - destruct (decide (k = N)) as [->|Hne].
    { eexists. by apply step_leave. }
    destruct (chan s) as [|i rest] eqn:Hch.
    + rewrite app_nil_r in Hsent.
      apply Permutation_length in Hperm.
      rewrite !length_app, length_seq, Hsent, Hlen in Hperm.
      destruct (sending s) as [|j js] eqn:Hs.
      * destruct (fetching s) as [|j js] eqn:Hf; [simpl in Hperm; lia|].
        eexists. by apply (step_fetched _ _ _ s j [] js).
      * eexists. apply (step_send _ _ _ s j [] js); [done|].
        unfold capacity. rewrite Hch. simpl in *. lia.
    + eexists. apply (step_recv _ _ _ s k i rest); [done|lia|done].
Qed.

(** Every step uses up one of the steps left: no run goes on for ever,
    and with [fan_in_progress] every run that is not cut short ends with
    the handler past the receive loop. *)
Lemma fanStep_decreases (s s' : state) :
  step s s' → fanMeasure N s' < fanMeasure N s.
Proof.
  intros Hstep. unfold fanMeasure, started, receiveCount.
  destruct Hstep as [s i Hpc Hi|s Hpc|s i l1 l2 Hf|s i l1 l2 Hs Hcap
                    |s k i rest Hpc Hk Hch|s Hpc]; cbn [pc fetching sending chan
                    allFamilies sent received]; rewrite ?Hpc, ?Hf, ?Hs;
    rewrite ?length_app; cbn [length]; lia.
Qed.

End FanInFacts.

(** ** The messages of the goroutines are keyed *)

Section Messages.

Variable httpGet : string → httpResult.
Variable TextToMetricFamilies :
  string → heap * gomap (MetricFamily LabelPair) * option error.
Variable rangeLabels : gmap string string → loc → list (string * string).
Variable rangeFamilies :
  gmap string (MetricFamily LabelPair) → list (string * MetricFamily LabelPair).
Hypothesis rangeLabels_enumerates :
  ∀ labels l, rangeLabels labels l ≡ₚ map_to_list labels.
Hypothesis rangeFamilies_enumerates : ∀ mp, rangeFamilies mp ≡ₚ map_to_list mp.

(** What the text parser guarantees of the map it returns: every family
    sits under its own name, and every label string is allocated. *)
Hypothesis parser_keyed :
  ∀ body, keyed (entries (TextToMetricFamilies body).1.2).
Hypothesis parser_allocated :
  ∀ body, map_Forall
            (λ _ mf, Forall (wfMetric (TextToMetricFamilies body).1.1)
                       (mfMetric mf))
            (entries (TextToMetricFamilies body).1.2).

(** The hypothesis of the theorems on the aggregator holds of what the
    handler receives: label injection changes neither key nor name. *)
Lemma contribution_keyed (t : Target) :
  keyed (entries (contribution httpGet TextToMetricFamilies rangeLabels
                    rangeFamilies t)).
Proof.
  unfold contribution, fetchTask, fetchMetrics.
  assert (keyed (∅ : gmap string (MetricFamily (string * string)))) as Hempty.
  { intros k mf. by rewrite lookup_empty. }
  destruct (httpGet (URL t)) as [e|code [e|body]]; [done..|].
  pose proof (parser_keyed body) as Hk.
  pose proof (parser_allocated body) as Hwf.
  destruct (TextToMetricFamilies body) as [[h [mp|]] err]; [|done].
  cbn [fst snd entries default from_option] in Hk, Hwf.
  destruct (addLabels_injected rangeLabels rangeFamilies (Labels t)
              (rangeLabels_enumerates (Labels t)) rangeFamilies_enumerates
              mp h Hwf) as (mp' & ext & -> & Hrel).
  cbn [fst viewMap fmap option_fmap option_map entries default from_option id].
  intros k g. rewrite lookup_fmap. intros Hg.
  destruct (mp' !! k) as [mf'|] eqn:Hmf'; [|done].
  injection Hg as <-. cbn [viewFamily mfName].
  specialize (Hrel k). destruct (mp !! k) as [mf|] eqn:Hmf.
  - destruct Hrel as (mf'' & Heq & Hname & _).
    rewrite Hmf' in Heq. injection Heq as ->. rewrite Hname.
    by apply Hk.
  - congruence.
Qed.

End Messages.

(** ** The fan-in of [handleMetrics] *)

Lemma omap_lookup_seq {T} (l1 l : list T) :
  omap ((l1 ++ l) !!.) (seq (length l1) (length l)) = l.
Proof.
  revert l1. induction l as [|x l IH]; intros l1; [done|].
  cbn [length seq omap list_omap]. rewrite list_lookup_middle by done.
  f_equal. specialize (IH (l1 ++ [x])).
  rewrite length_app, <- app_assoc in IH. simpl in IH.
  by replace (length l1 + 1) with (S (length l1)) in IH by lia.
Qed.

Lemma arrivalOf_complete (targets : list Target) (received : list nat) :
  received ≡ₚ seq 0 (length targets) → arrivalOf targets received ≡ₚ targets.
Proof.
  intros Hperm. unfold arrivalOf. rewrite Hperm.
  pose proof (omap_lookup_seq [] targets) as H. simpl in H. by rewrite H.
Qed.

Section FanInHandler.

Variable httpGet : string → httpResult.
Variable TextToMetricFamilies :
  string → heap * gomap (MetricFamily LabelPair) * option error.
Variable rangeLabels : gmap string string → loc → list (string * string).
Variable rangeFamilies :
  gmap string (MetricFamily LabelPair) → list (string * MetricFamily LabelPair).
Variable rangeMap :
  gmap string (MetricFamily (string * string))
  → list (string * MetricFamily (string * string)).

Local Abbreviation sentBy :=
  (contribution httpGet TextToMetricFamilies rangeLabels rangeFamilies).
Local Abbreviation message :=
  (messageOf httpGet TextToMetricFamilies rangeLabels rangeFamilies).

Lemma messages_of_arrival (targets : list Target) (received : list nat) :
  Forall (λ i, i < length targets) received →
  message targets <$> received = sentBy <$> arrivalOf targets received.
Proof.
  induction 1 as [|i received Hi _ IH]; [done|].
  unfold arrivalOf in *. cbn [fmap list_fmap omap list_omap].
  unfold messageOf at 1.
  destruct (lookup_lt_is_Some_2 targets i Hi) as [t Ht]. rewrite Ht.
  cbn [from_option fmap list_fmap]. by rewrite IH.
Qed.


End FanInHandler.

(** ** The properties at concrete inputs *)

Lemma inOrder_enumerates {V} (m : gmap string V) : inOrder m ≡ₚ map_to_list m.
Proof. done. Qed.

Lemma inReverse_enumerates {V} (m : gmap string V) :
  inReverse m ≡ₚ map_to_list m.
Proof. unfold inReverse. apply reverse_Permutation. Qed.

Lemma keyed_empty {P} : keyed (∅ : gmap string (MetricFamily P)).
Proof. intros k mf. by rewrite lookup_empty. Qed.

Lemma keyed_insert {P} (m : gmap string (MetricFamily P)) (mf : MetricFamily P) :
  keyed m → keyed (<[mfName mf := mf]> m).
Proof.
  intros Hm k mf'. rewrite lookup_insert_Some.
  intros [[<- <-]|[_ Hk]]; [done|by apply Hm].
Qed.

Lemma keyed_singleton {P} (mf : MetricFamily P) :
  keyed ({[ mfName mf := mf ]} : gmap string (MetricFamily P)).
Proof. rewrite <- insert_empty. apply keyed_insert, keyed_empty. Qed.

Lemma demoResults_keyed : Forall (λ r, keyed (entries r)) demoResults.
Proof.
  unfold demoResults. repeat constructor.
  - apply keyed_empty.
  - apply (keyed_singleton firstUp).
  - apply (keyed_insert _ (envFamily "down" "dev")), (keyed_singleton secondUp).
Qed.

(** The example of the specification: target [b] labelled [env="dev"] and
    target [c] labelled [env="test"] both expose [up 1]; the response holds
    the family [up] once, with one sample of each target. *)
Example two_targets_one_family :
  map_to_list (merged demoNet demoParser labelsInOrder inOrder inOrder
                 [targetB; targetC])
  = [("up", {| mfName := "up"; mfHelp := None; mfType := Some UNTYPED;
               mfMetric := [{| mLabel := [("env", "dev")]; mData := 1 |};
                            {| mLabel := [("env", "test")]; mData := 1 |}] |})].
Proof. by vm_compute. Qed.



(** C4 (witness).  Three results, the first nil, the others with one and
    two samples under [up]. *)
Lemma aggregate_sample_count_witness :
  sampleCount (aggregate inOrder demoResults) "up"
  = sum_list_with (λ r, sampleCount (entries r) "up") demoResults
  ∧ sampleCount (aggregate inOrder demoResults) "up" = 3.
Proof.
  split.
  - apply (aggregate_sample_count inOrder inOrder_enumerates demoResults "up"
             demoResults_keyed).
  - by vm_compute.
Defined.

(** C7 (witness).  The family [up] arrives first as a gauge with help
    [first], then as a counter with help [second]. *)
Lemma aggregate_first_metadata_witness :
  ∃ g, aggregate inOrder demoResults !! "up" = Some g
     ∧ mfName g = "up" ∧ mfHelp g = Some "first" ∧ mfType g = Some GAUGE
     ∧ mfMetric g = mfMetric firstUp ++ mfMetric secondUp ++ [].
Proof.
  apply (aggregate_first_metadata inOrder inOrder_enumerates
           [None] [Some demoMap]
           (Some {[ "up" := firstUp ]}) firstUp "up" demoResults_keyed).
  - repeat constructor.
  - by vm_compute.
Defined.


(** C8 (witness).  Targets [e], [d] and [b] arrive in this order; the
    encoder accepts [up], rejects [vm_bad] and is never given [zed]. *)
Lemma encode_error_stops_serializer_witness :
  ∃ pre mf post e,
    sortSlice (inOrder (merged demoNet demoParser labelsInOrder inOrder inOrder
                          [targetE; targetD; targetB])).*2
      = pre ++ mf :: post
    ∧ Forall (accepted demoEncoder) pre
    ∧ (demoEncoder mf).2 = Some e
    ∧ (serializeMetrics inOrder demoEncoder
         (merged demoNet demoParser labelsInOrder inOrder inOrder
            [targetE; targetD; targetB]) newWorld).2 = Some e
    ∧ encoded (handleMetrics demoNet demoParser labelsInOrder inOrder inOrder
                 demoEncoder [targetE; targetD; targetB]) = pre ++ [mf]
    ∧ NoDup (pre ++ mf :: post)
    ∧ logs (handleMetrics demoNet demoParser labelsInOrder inOrder inOrder
              demoEncoder [targetE; targetD; targetB])
      = [serializeFailedMsg e]
    ∧ scrape demoNet demoParser labelsInOrder inOrder inOrder demoEncoder
        [targetE; targetD; targetB]
      = {| status := Some 200; body := bytesOf demoEncoder (pre ++ [mf]) |}.
Proof.
  apply (encode_error_stops_serializer demoNet demoParser labelsInOrder
           inOrder inOrder demoEncoder inOrder_enumerates
           [targetE; targetD; targetB]).
  exists (envFamily "vm_bad" "dev"). split.
  - apply list_elem_of_lookup. exists 1. by vm_compute.
  - unfold accepted. by vm_compute.
Defined.

(** The run of the witness, evaluated: the body holds the bytes of [up]
    and the bytes written for [vm_bad] before it was rejected. *)
Example encode_error_run :
  handleMetrics demoNet demoParser labelsInOrder inOrder inOrder demoEncoder
    [targetE; targetD; targetB]
  = {| resp := {| status := Some 200; body := "up;vm_bad" |};
       encoded := [envFamily "up" "dev"; envFamily "vm_bad" "dev"];
       logs := ["failed to serialize metrics: rejected"] |}.
Proof. by vm_compute. Qed.

(** C10 (witness).  Two targets, both refusing the connection. *)
Lemma all_fetches_fail_empty_response_witness :
  Forall (λ t, contribution demoNet demoParser labelsInOrder inOrder t = None)
    [targetA; mkTarget "http://nowhere/metrics" "prod"]
  ∧ merged demoNet demoParser labelsInOrder inOrder inOrder
      [targetA; mkTarget "http://nowhere/metrics" "prod"] = ∅
  ∧ handleMetrics demoNet demoParser labelsInOrder inOrder inOrder demoEncoder
      [targetA; mkTarget "http://nowhere/metrics" "prod"] = newWorld
  ∧ scrape demoNet demoParser labelsInOrder inOrder inOrder demoEncoder
      [targetA; mkTarget "http://nowhere/metrics" "prod"]
    = {| status := Some 200; body := EmptyString |}.
Proof.
  apply (all_fetches_fail_empty_response demoNet demoParser labelsInOrder
           inOrder inOrder demoEncoder inOrder_enumerates).
  repeat constructor.
Defined.

(** A run of two goroutines: both started, goroutine 1 fetched, sent and
    received first, then goroutine 0. *)
Lemma demoSending_reachable : reachable 2 id snoc [] demoSending.
Proof.
  unfold reachable.
  eapply rtc_l; [apply (step_go 2 id snoc _ 0); [done|lia]|]. cbn.
  eapply rtc_l; [apply (step_go 2 id snoc _ 1); [done|lia]|]. cbn.
  eapply rtc_l; [by apply step_started|]. cbn.
  eapply rtc_l; [by apply (step_fetched 2 id snoc _ 0 [1] [])|]. cbn.
  apply rtc_refl.
Qed.

Lemma demoMerging_reachable : reachable 2 id snoc [] demoMerging.
Proof.
  unfold reachable.
  eapply rtc_l; [apply (step_go 2 id snoc _ 0); [done|lia]|]. cbn.
  eapply rtc_l; [apply (step_go 2 id snoc _ 1); [done|lia]|]. cbn.
  eapply rtc_l; [by apply step_started|]. cbn.
  eapply rtc_l; [by apply (step_fetched 2 id snoc _ 1 [] [0])|]. cbn.
  eapply rtc_l; [apply (step_send 2 id snoc _ 1 [] []); [done|unfold capacity; simpl; lia]|]. cbn.
  eapply rtc_l; [apply (step_recv 2 id snoc _ 0 1 []); [done|lia|done]|]. cbn.
  apply rtc_refl.
Qed.

Lemma demoDone_reachable : reachable 2 id snoc [] demoDone.
Proof.
  unfold reachable. eapply rtc_trans; [apply demoMerging_reachable|].
  unfold demoMerging.
  eapply rtc_l; [by apply (step_fetched 2 id snoc _ 0 [] [])|]. cbn.
  eapply rtc_l; [apply (step_send 2 id snoc _ 0 [] []); [done|unfold capacity; simpl; lia]|]. cbn.
  eapply rtc_l; [apply (step_recv 2 id snoc _ 1 0 []); [done|lia|done]|]. cbn.
  eapply rtc_l; [by apply step_leave|]. cbn.
  apply rtc_refl.
Qed.

(** In the code each received map is merged before the next receive: in
    this reachable state of a fan-in of two the handler has received one
    message and its map already holds it. *)
Example merge_follows_each_receive :
  reachable 2 id snoc [] demoMerging
  ∧ receiveCount 2 demoMerging = 1
  ∧ allFamilies demoMerging = [1].
Proof. split; [apply demoMerging_reachable|done]. Qed.

(** C9 (witness).  Goroutine 0 stands at its send while goroutine 1 is
    still fetching. *)
Lemma send_never_blocks_witness :
  capacity 2 = 2
  ∧ NoDup (sent demoSending)
  ∧ length (chan demoSending) ≤ length (sent demoSending)
  ∧ (∀ i, i ∈ sending demoSending →
       (i ∉ sent demoSending) ∧ length (chan demoSending) < capacity 2)
  ∧ ¬ sendBlocked 2 demoSending.
Proof.
  apply (send_never_blocks 2 id snoc [] demoSending demoSending_reachable).
Defined.


(** * Further properties of the code *)

(** ** [addLabels] *)

(** A relation that holds of two lists in pairs and is a function. *)
Lemma Forall2_function {T U} (f : T → U) (l : list T) (k : list U) :
  Forall2 (λ x y, y = f x) l k → k = f <$> l.
Proof. induction 1 as [|x y l k -> _ IH]; [done|]. by rewrite IH. Qed.

(** A label set of at most one entry is its one entry, or empty. *)
Lemma small_label_set (labels : gmap string string) (e : string * string) :
  size labels ≤ 1 →
  labels = ∅ ∨ e ∈ map_to_list labels →
  replicate (size labels) e = map_to_list labels.
Proof.
  intros Hsize He. pose proof (length_map_to_list labels) as Hlen.
  destruct He as [->|He]; [by rewrite map_size_empty, map_to_list_empty|].
  destruct (map_to_list labels) as [|x [|y l]] eqn:Hl.
  - by apply elem_of_nil in He.
  - apply list_elem_of_singleton in He. subst x.
    simpl in Hlen. by rewrite <- Hlen.
  - simpl in Hlen. lia.
Qed.

Section AddLabelsMore.

Variable rangeLabels : gmap string string → loc → list (string * string).
Variable rangeFamilies :
  gmap string (MetricFamily LabelPair) → list (string * MetricFamily LabelPair).
Variable labels : gmap string string.
Hypothesis rangeLabels_enumerates : ∀ l, rangeLabels labels l ≡ₚ map_to_list labels.
Hypothesis rangeFamilies_enumerates : ∀ mp, rangeFamilies mp ≡ₚ map_to_list mp.

(** The label lists of the samples of a family, before and after. *)
Lemma labelsOf_addLabels (mp : gmap string (MetricFamily LabelPair))
    (h : heap) (n : string) :
  map_Forall (λ _ mf, Forall (wfMetric h) (mfMetric mf)) mp →
  Forall2 (λ ls ls', ∃ e, (labels = ∅ ∨ e ∈ map_to_list labels)
                        ∧ ls' = ls ++ replicate (size labels) e)
    (labelsOf (Some mp, h) n)
    (labelsOf (addLabels rangeLabels rangeFamilies (Some mp) labels h) n).
Proof.
  intros Hwf.
  destruct (addLabels_injected rangeLabels rangeFamilies labels
              rangeLabels_enumerates rangeFamilies_enumerates mp h Hwf)
    as (mp' & ext & -> & Hrel).
  unfold labelsOf. cbn [fst snd entries default from_option id].
  specialize (Hrel n). destruct (mp !! n) as [mf|].
  - destruct Hrel as (mf' & -> & _ & _ & _ & Hall).
    apply Forall2_fmap. eapply Forall2_impl; [exact Hall|].
    intros m m' (_ & _ & e & He & Hv). by exists e.
  - rewrite Hrel. constructor.
Qed.

(** X1.  For every decoded map whose label strings are allocated, and
    whatever the orders of enumeration, [addLabels] only allocates (the
    store it leaves is the old store followed by new cells), keeps the
    keys of the map, keeps name, help, type and the values of the samples
    of every family, and leaves every sample with its own pairs followed
    by as many pairs as the label set has entries, all of which read as
    one and the same entry of the set. *)
Theorem addLabels_frame (mp : gmap string (MetricFamily LabelPair)) (h : heap) :
  map_Forall (λ _ mf, Forall (wfMetric h) (mfMetric mf)) mp →
  ∃ mp' ext,
    addLabels rangeLabels rangeFamilies (Some mp) labels h = (Some mp', h ++ ext)
    ∧ dom mp' = dom mp
    ∧ (∀ k mf mf', mp !! k = Some mf → mp' !! k = Some mf' →
         mfName mf' = mfName mf ∧ mfHelp mf' = mfHelp mf
         ∧ mfType mf' = mfType mf
         ∧ mData <$> mfMetric mf' = mData <$> mfMetric mf)
    ∧ (∀ n, Forall2 (λ ls ls', ∃ e, (labels = ∅ ∨ e ∈ map_to_list labels)
                                  ∧ ls' = ls ++ replicate (size labels) e)
              (labelsOf (Some mp, h) n) (labelsOf (Some mp', h ++ ext) n)).
Proof.
  intros Hwf.
  destruct (addLabels_injected rangeLabels rangeFamilies labels
              rangeLabels_enumerates rangeFamilies_enumerates mp h Hwf)
    as (mp' & ext & Hrun & Hrel).
  exists mp', ext. split; [done|]. split; [|split].
  - apply set_eq. intros k. rewrite !elem_of_dom. specialize (Hrel k).
    destruct (mp !! k) as [mf|].
    + destruct Hrel as (mf' & -> & _). split; eauto.
    + rewrite Hrel. done.
  - intros k mf mf' Hmf Hmf'. specialize (Hrel k). rewrite Hmf in Hrel.
    destruct Hrel as (mf'' & Heq & Hname & Hhelp & Htype & Hall).
    rewrite Hmf' in Heq. injection Heq as <-. repeat split; [done..|].
    apply list_eq_Forall2, Forall2_fmap, Forall2_flip.
    eapply Forall2_impl; [exact Hall|]. intros m m' (_ & Hd & _). done.
  - intros n. pose proof (labelsOf_addLabels mp h n Hwf) as Hl.
    by rewrite Hrun in Hl.
Qed.

(** X2.  With a label set of at most one entry, [addLabels] appends the
    entries of the set to the label pairs of every sample of every family,
    and nothing else. *)
Theorem addLabels_small_label_set (mp : gmap string (MetricFamily LabelPair))
    (h : heap) (n : string) :
  map_Forall (λ _ mf, Forall (wfMetric h) (mfMetric mf)) mp →
  size labels ≤ 1 →
  labelsOf (addLabels rangeLabels rangeFamilies (Some mp) labels h) n
  = (λ ls, ls ++ map_to_list labels) <$> labelsOf (Some mp, h) n.
Proof.
  intros Hwf Hsize. apply Forall2_function.
  eapply Forall2_impl; [apply (labelsOf_addLabels mp h n Hwf)|].
  intros ls ls' (e & He & ->). by rewrite (small_label_set labels e).
Qed.

(** X3.  With a label set of two entries or more, every sample of every
    family leaves [addLabels] with a label name that occurs twice. *)
Theorem addLabels_duplicate_names (mp : gmap string (MetricFamily LabelPair))
    (h : heap) (n : string) :
  map_Forall (λ _ mf, Forall (wfMetric h) (mfMetric mf)) mp →
  2 ≤ size labels →
  Forall (λ ls', ¬ NoDup ls'.*1)
    (labelsOf (addLabels rangeLabels rangeFamilies (Some mp) labels h) n).
Proof.
  intros Hwf Hsize.
  eapply Forall2_Forall_r; [apply (labelsOf_addLabels mp h n Hwf)|].
  apply Forall_forall. intros ls' _ ls (e & _ & ->).
  destruct (size labels) as [|[|sz]]; [lia..|].
  rewrite fmap_app. cbn [replicate fmap list_fmap].
  intros Hnd. apply NoDup_app in Hnd as (_ & _ & Hnd).
  apply NoDup_cons in Hnd as [Hin _]. apply Hin. left.
Qed.

(** X4.  [addLabels] never overrides: when the one entry of the label set
    is named like a label the sample already has, the sample keeps its
    pair, gains the pair of the target, and so carries the name twice. *)
Theorem addLabels_keeps_colliding_pair
    (mp : gmap string (MetricFamily LabelPair)) (h : heap) (n k v : string)
    (i : nat) (ls : list (string * string)) :
  map_Forall (λ _ mf, Forall (wfMetric h) (mfMetric mf)) mp →
  size labels ≤ 1 → labels !! k = Some v →
  labelsOf (Some mp, h) n !! i = Some ls → k ∈ ls.*1 →
  labelsOf (addLabels rangeLabels rangeFamilies (Some mp) labels h) n !! i
    = Some (ls ++ [(k, v)])
  ∧ ¬ NoDup (ls ++ [(k, v)]).*1.
Proof.
  intros Hwf Hsize Hk Hls Hin.
  assert (map_to_list labels = [(k, v)]) as Hone.
  { rewrite <- (small_label_set labels (k, v) Hsize).
    - apply elem_of_map_to_list in Hk as Hel.
      pose proof (length_map_to_list labels) as Hlen.
      destruct (map_to_list labels) as [|x l]; [by apply elem_of_nil in Hel|].
      simpl in Hlen. assert (size labels = 1) as -> by lia. done.
    - right. by apply elem_of_map_to_list. }
  split.
  - destruct (Forall2_lookup_l _ _ _ i ls (labelsOf_addLabels mp h n Hwf) Hls)
      as (ls' & -> & e & He & ->).
    by rewrite (small_label_set labels e Hsize He), Hone.
  - rewrite fmap_app. cbn [fmap list_fmap fst]. intros Hnd.
    apply NoDup_app in Hnd as (_ & Hdisj & _). apply (Hdisj k Hin). left.
Qed.

End AddLabelsMore.

(** ** The merge loop of [handleMetrics] *)

Section AggregatorMore.

Context {P : Type}.
Variable rangeMap :
  gmap string (MetricFamily P) → list (string * MetricFamily P).
Hypothesis rangeMap_enumerates : ∀ m, rangeMap m ≡ₚ map_to_list m.

Lemma foldl_mergeEntry_samples (os : list (option (MetricFamily P))) :
  ∀ o, from_option mfMetric [] (foldl mergeEntry o os)
       = from_option mfMetric [] o ++ concat (from_option mfMetric [] <$> os).
Proof.
  induction os as [|o' os IH]; intros o; cbn [foldl fmap list_fmap concat].
  - by rewrite app_nil_r.
  - rewrite IH. destruct o as [amf|], o' as [mf|]; simpl;
      by rewrite ?app_nil_r, ?app_assoc.
Qed.

Lemma foldl_mergeEntry_is_Some (os : list (option (MetricFamily P))) :
  ∀ o, is_Some (foldl mergeEntry o os) ↔ is_Some o ∨ Exists is_Some os.
Proof.
  induction os as [|o' os IH]; intros o; cbn [foldl].
  - rewrite Exists_nil. tauto.
  - rewrite IH, Exists_cons.
    assert (is_Some (mergeEntry o o') ↔ is_Some o ∨ is_Some o') as ->; [|tauto].
    destruct o as [amf|], o' as [mf|]; cbn [mergeEntry]; split;
      try (intros _; (left; by eexists) || (right; by eexists));
      try (intros _; by eexists).
    + intros [x Hx]. done.
    + intros [[x Hx]|[x Hx]]; done.
Qed.

Lemma aggregate_samples (rs : list (gomap (MetricFamily P))) (n : string) :
  Forall (λ r, keyed (entries r)) rs →
  from_option mfMetric [] (aggregate rangeMap rs !! n)
  = concat ((λ r, samplesOf r n) <$> rs).
Proof.
  intros Hk. rewrite (aggregate_lookup rangeMap rangeMap_enumerates rs n Hk).
  rewrite foldl_mergeEntry_samples. cbn [from_option app].
  by rewrite <- list_fmap_compose.
Qed.

(** X6.  The merged map holds a family under a name exactly when some
    received result does: no family is dropped and none is invented. *)
Theorem aggregate_names (rs : list (gomap (MetricFamily P))) (n : string) :
  Forall (λ r, keyed (entries r)) rs →
  is_Some (aggregate rangeMap rs !! n)
  ↔ ∃ r, r ∈ rs ∧ is_Some (entries r !! n).
Proof.
  intros Hk. rewrite (aggregate_lookup rangeMap rangeMap_enumerates rs n Hk).
  rewrite foldl_mergeEntry_is_Some, Exists_exists. split.
  - intros [H|(o & Ho & Hsome)]; [by destruct H|].
    apply list_elem_of_fmap in Ho as (r & -> & Hr). by exists r.
  - intros (r & Hr & Hsome). right. exists (entries r !! n). split; [|done].
    apply list_elem_of_fmap. by exists r.
Qed.

(** X7.  The order in which the results arrive decides the order of the
    samples and nothing else about them: two arrival orders of the same
    results give merged maps with the same names and, under every name,
    the same samples up to their order. *)
Theorem aggregate_arrival_order (rs rs' : list (gomap (MetricFamily P)))
    (n : string) :
  Forall (λ r, keyed (entries r)) rs → rs ≡ₚ rs' →
  (is_Some (aggregate rangeMap rs !! n) ↔ is_Some (aggregate rangeMap rs' !! n))
  ∧ from_option mfMetric [] (aggregate rangeMap rs !! n)
    ≡ₚ from_option mfMetric [] (aggregate rangeMap rs' !! n).
Proof.
  intros Hk Hperm.
  assert (Forall (λ r, keyed (entries r)) rs') as Hk' by by rewrite <- Hperm.
  split.
  - rewrite !(aggregate_lookup rangeMap rangeMap_enumerates _ n) by done.
    rewrite !foldl_mergeEntry_is_Some. by rewrite Hperm.
  - rewrite !aggregate_samples by done. by rewrite Hperm.
Qed.

(** X8.  Merging a single result changes nothing: the merged map of one
    keyed result is that result. *)
Theorem aggregate_single (r : gomap (MetricFamily P)) :
  keyed (entries r) → aggregate rangeMap [r] = entries r.
Proof.
  intros Hk. apply map_eq. intros n.
  rewrite (aggregate_lookup rangeMap rangeMap_enumerates [r] n).
  - done.
  - by constructor.
Qed.

End AggregatorMore.

(** ** [handleMetrics] and [serializeMetrics] *)

Section HandlerMore.

Variable httpGet : string → httpResult.
Variable TextToMetricFamilies :
  string → heap * gomap (MetricFamily LabelPair) * option error.
Variable rangeLabels : gmap string string → loc → list (string * string).
Variable rangeFamilies :
  gmap string (MetricFamily LabelPair) → list (string * MetricFamily LabelPair).
Variable rangeMap :
  gmap string (MetricFamily (string * string))
  → list (string * MetricFamily (string * string)).
Variable MetricFamilyToText :
  MetricFamily (string * string) → string * option error.

Local Abbreviation mergedOf :=
  (merged httpGet TextToMetricFamilies rangeLabels rangeFamilies rangeMap).
Local Abbreviation handle :=
  (handleMetrics httpGet TextToMetricFamilies rangeLabels rangeFamilies
    rangeMap MetricFamilyToText).
Local Abbreviation scrapeOf :=
  (scrape httpGet TextToMetricFamilies rangeLabels rangeFamilies
    rangeMap MetricFamilyToText).

(** X5.  Whatever the targets answer and whatever the decoder returns,
    every family of the map the handler builds sits under its own name. *)
Theorem merged_under_own_name (arrival : list Target) :
  keyed (mergedOf arrival).
Proof. apply aggregate_keyed. Qed.

(** X10.  For every scrape, whatever the fetches and the encoder do: the
    status is 200; the body is exactly the bytes the encoder wrote for the
    families it was called on, in call order; those families are a prefix
    of the sorted list; and the handler logs nothing or one line. *)
Theorem scrape_response_shape (arrival : list Target) :
  status (scrapeOf arrival) = Some 200
  ∧ body (scrapeOf arrival)
    = bytesOf MetricFamilyToText (encoded (handle arrival))
  ∧ encoded (handle arrival)
    `prefix_of` sortSlice (rangeMap (mergedOf arrival)).*2
  ∧ (logs (handle arrival) = []
     ∨ ∃ e, logs (handle arrival) = [serializeFailedMsg e]).
Proof.
  unfold scrape, handleMetrics, collate, serializeMetrics, merged.
  set (lst := sortSlice _).
  destruct (first_rejected MetricFamilyToText lst)
    as [Hacc|(pre & mf & post & e & Hlst & Hpre & He)].
  - destruct (encodeLoop_accepted MetricFamilyToText lst newWorld Hacc)
      as (wd' & -> & Henc & Hbody & Hst & Hlogs).
    split; [by rewrite Hst|]. cbn [finish body]. rewrite Henc, Hlogs, Hbody.
    split; [done|]. split; [done|by left].
  - rewrite Hlst.
    destruct (encodeLoop_rejected MetricFamilyToText pre post mf e
                newWorld Hpre He) as (wd' & -> & Henc & Hbody & Hst & Hlogs).
    cbn [resp encoded logs]. split; [by rewrite Hst|].
    cbn [finish body]. rewrite Henc, Hlogs, Hbody.
    split; [reflexivity|]. split; [|right; by exists e].
    exists post. cbn [encoded newWorld app]. by rewrite <- app_assoc.
Qed.

Hypothesis rangeMap_enumerates : ∀ m, rangeMap m ≡ₚ map_to_list m.


End HandlerMore.

(** ** The fan-in: no deadlock *)

(** X11.  The fan-out / fan-in never deadlocks: in every reachable state
    in which the handler is not yet past the receive loop, some step of a
    goroutine or of the handler is enabled. *)
Theorem fan_in_never_stalls {R A : Type} (N : nat) (res : nat → R)
    (mergeOne : A → R → A) (emptyAll : A) (s : fanState A) :
  reachable N res mergeOne emptyAll s →
  pc s ≠ Serializing →
  ∃ s', fanStep N res mergeOne s s'.
Proof. apply fan_in_progress. Qed.

(** ** The fan-in: how long a run is *)

Section FanInMore.

Context {R A : Type}.
Variable N : nat.
Variable res : nat → R.
Variable mergeOne : A → R → A.
Variable emptyAll : A.

Local Abbreviation state := (fanState A).
Local Abbreviation step := (fanStep N res mergeOne).

Lemma fanStep_measure (s s' : state) :
  step s s' → fanMeasure N s = S (fanMeasure N s').
Proof.
  intros Hstep. unfold fanMeasure, started, receiveCount.
  destruct Hstep as [s i Hpc Hi|s Hpc|s i l1 l2 Hf|s i l1 l2 Hs Hcap
                    |s k i rest Hpc Hk Hch|s Hpc]; cbn [pc fetching sending chan
                    allFamilies sent received]; rewrite ?Hpc, ?Hf, ?Hs;
    rewrite ?length_app; cbn [length]; lia.
Qed.

Lemma nsteps_measure (n : nat) (s s' : state) :
  nsteps step n s s' → fanMeasure N s = n + fanMeasure N s'.
Proof.
  induction 1 as [s|n s1 s2 s3 Hstep _ IH]; [done|].
  rewrite (fanStep_measure s1 s2 Hstep), IH. lia.
Qed.

(** X12.  A state reached in [n] steps has [4 * N + 2 - n] steps left: no
    run of a scrape over [N] targets is longer than [4 * N + 2] steps (one
    start, one fetch, one send and one receive per target, the end of the
    start loop and the exit of the receive loop), and the handler is past
    the receive loop after exactly that many. *)
Theorem fan_in_steps (n : nat) (s : state) :
  nsteps step n (fanInit emptyAll) s →
  n + fanMeasure N s = 4 * N + 2
  ∧ (pc s = Serializing → n = 4 * N + 2).
Proof.
  intros Hn. pose proof (nsteps_measure n _ s Hn) as Hm.
  assert (fanMeasure N (fanInit emptyAll) = 4 * N + 2) as Hinit.
  { unfold fanMeasure, started, receiveCount. simpl. lia. }
  split; [lia|]. intros Hpc.
  assert (reachable N res mergeOne emptyAll s) as Hr
    by by eapply rtc_nsteps_2.
  apply reachable_inv in Hr.
  destruct (fanInv_done N res mergeOne emptyAll s Hr Hpc)
    as (_ & _ & _ & Hf & Hs & _).
  assert (fanMeasure N s = 0) as Hz.
  { unfold fanMeasure, started, receiveCount. rewrite Hpc, Hf, Hs.
    simpl. lia. }
  lia.
Qed.

End FanInMore.

(** ** [loadConfig] and [main] *)

Section StartupFacts.

Variable osOpen : string → result string.
Variable yamlDecode : string → result Config.
Variable getenv : string → string.
Variable ListenAndServe : string → option error.
Variable rangeTargetLabels : nat → gmap string string → list (string * string).

Local Abbreviation load := (loadConfig osOpen yamlDecode rangeTargetLabels).
Local Abbreviation start :=
  (main osOpen yamlDecode getenv ListenAndServe rangeTargetLabels).

(** The loop over the targets, started after the targets [pre]. *)
Lemma serializeLoop_imap (ts : list Target) :
  ∀ pre, serializeLoop rangeTargetLabels (length pre) ts (pre ++ ts)
         = pre ++ imap (λ j t, setSerialized
                                 (serializeLabels
                                    (rangeTargetLabels (length pre + j) (Labels t)))
                                 t) ts.
Proof.
  induction ts as [|t ts IH]; intros pre; [done|].
  cbn [serializeLoop]. rewrite imap_cons.
  rewrite alter_app_r_alt by lia. rewrite Nat.sub_diag. cbn [alter list_alter].
  specialize (IH (pre ++ [setSerialized
    (Join (formatLabel <$> rangeTargetLabels (length pre) (Labels t)) ",") t])).
  rewrite length_app, <- app_assoc in IH. cbn [length app] in IH.
  replace (length pre + 1) with (S (length pre)) in IH by lia.
  rewrite IH, <- app_assoc. cbn [app]. f_equal. f_equal.
  - by rewrite Nat.add_0_r.
  - apply imap_ext. intros j t' _. cbn.
    by replace (S (length pre + j)) with (length pre + S j) by lia.
Qed.

Lemma loadConfig_targets (path : string) (cfg : Config) :
  load path = Ok cfg →
  ∃ f cfg0, osOpen path = Ok f ∧ yamlDecode f = Ok cfg0
    ∧ Listen cfg = (if decide (Listen cfg0 = EmptyString)
                    then "0.0.0.0:9001" else Listen cfg0)
    ∧ Targets cfg = imap (λ j t, setSerialized
                                   (serializeLabels
                                      (rangeTargetLabels j (Labels t))) t)
                      (Targets cfg0).
Proof.
  unfold loadConfig. destruct (osOpen path) as [f|e] eqn:Hf; [|done].
  destruct (yamlDecode f) as [cfg0|e] eqn:Hd; [|done].
  intros Heq. injection Heq as <-. exists f, cfg0.
  split; [done|]. split; [done|]. split; [done|]. cbn [Targets].
  exact (serializeLoop_imap (Targets cfg0) []).
Qed.

(** X14.  A successful [loadConfig] returns the decoded configuration with
    a listen address that is never empty (the decoded one, or
    [0.0.0.0:9001] when that is empty), the same targets in the same order
    with their URLs and label sets untouched, and for every target the
    serialization of its labels in the order they were enumerated. *)
Theorem loadConfig_ok (path : string) (cfg : Config) :
  load path = Ok cfg →
  ∃ f cfg0, osOpen path = Ok f ∧ yamlDecode f = Ok cfg0
    ∧ Listen cfg ≠ EmptyString
    ∧ (Listen cfg0 ≠ EmptyString → Listen cfg = Listen cfg0)
    ∧ (Listen cfg0 = EmptyString → Listen cfg = "0.0.0.0:9001")
    ∧ URL <$> Targets cfg = URL <$> Targets cfg0
    ∧ Labels <$> Targets cfg = Labels <$> Targets cfg0
    ∧ ∀ i t, Targets cfg !! i = Some t →
        labelsSerialized t
        = serializeLabels (rangeTargetLabels i (Labels t)).
Proof.
  intros Hload.
  destruct (loadConfig_targets path cfg Hload) as (f & cfg0 & Hf & Hd & Hl & Ht).
  exists f, cfg0. split; [done|]. split; [done|].
  split; [|split; [|split; [|split; [|split]]]].
  - rewrite Hl. case_decide; done.
  - intros Hne. rewrite Hl. by case_decide.
  - intros Heq. rewrite Hl. by case_decide.
  - rewrite Ht. apply list_eq. intros i.
    rewrite !list_lookup_fmap, list_lookup_imap.
    by destruct (Targets cfg0 !! i).
  - rewrite Ht. apply list_eq. intros i.
    rewrite !list_lookup_fmap, list_lookup_imap.
    by destruct (Targets cfg0 !! i).
  - intros i t. rewrite Ht, list_lookup_imap.
    destruct (Targets cfg0 !! i) as [t0|]; [|done].
    intros Heq. injection Heq as <-. done.
Qed.


End StartupFacts.

(** ** [loadConfig] and [handleMetrics] together *)

Section StartupHandler.

Variable osOpen : string → result string.
Variable yamlDecode : string → result Config.
Variable rangeTargetLabels : nat → gmap string string → list (string * string).
Variable httpGet : string → httpResult.
Variable TextToMetricFamilies :
  string → heap * gomap (MetricFamily LabelPair) * option error.
Variable rangeLabels : gmap string string → loc → list (string * string).
Variable rangeFamilies :
  gmap string (MetricFamily LabelPair) → list (string * MetricFamily LabelPair).
Variable rangeMap :
  gmap string (MetricFamily (string * string))
  → list (string * MetricFamily (string * string)).
Variable MetricFamilyToText :
  MetricFamily (string * string) → string * option error.

Local Abbreviation sentBy :=
  (contribution httpGet TextToMetricFamilies rangeLabels rangeFamilies).

(** X15.  The serialized labels that [loadConfig] stores are never read by
    a scrape: whatever order the results arrive in, a scrape over the
    loaded targets leaves behind what the same scrape over the decoded
    targets does. *)
Theorem loadConfig_scrape (path f : string) (cfg cfg0 : Config)
    (received : list nat) :
  loadConfig osOpen yamlDecode rangeTargetLabels path = Ok cfg →
  osOpen path = Ok f → yamlDecode f = Ok cfg0 →
  sentBy <$> arrivalOf (Targets cfg) received
    = sentBy <$> arrivalOf (Targets cfg0) received
  ∧ handleMetrics httpGet TextToMetricFamilies rangeLabels rangeFamilies
      rangeMap MetricFamilyToText (arrivalOf (Targets cfg) received)
    = handleMetrics httpGet TextToMetricFamilies rangeLabels rangeFamilies
        rangeMap MetricFamilyToText (arrivalOf (Targets cfg0) received).
Proof.
  intros Hload Hf Hd.
  destruct (loadConfig_targets _ _ _ _ _ Hload) as (f' & cfg0' & Hf' & Hd' & _ & Ht).
  rewrite Hf in Hf'. injection Hf' as <-.
  rewrite Hd in Hd'. injection Hd' as <-.
  assert (sentBy <$> arrivalOf (Targets cfg) received
          = sentBy <$> arrivalOf (Targets cfg0) received) as Heq.
  { unfold arrivalOf. induction received as [|i received IH]; [done|].
    cbn [omap list_omap]. rewrite Ht at 1. rewrite list_lookup_imap.
    destruct (Targets cfg0 !! i) as [t|]; cbn [fmap option_fmap option_map];
      [|done].
    rewrite !fmap_cons, IH. done. }
  split; [done|]. unfold handleMetrics. by rewrite Heq.
Qed.

End StartupHandler.

(** ** The further properties at concrete inputs *)

Lemma upMap_allocated :
  map_Forall (λ _ mf, Forall (wfMetric upHeap) (mfMetric mf)) upMap.
Proof.
  apply map_Forall_singleton. repeat constructor; simpl; lia.
Qed.

Lemma labelsInOrder_enumerates (labels : gmap string string) (l : loc) :
  labelsInOrder labels l ≡ₚ map_to_list labels.
Proof. done. Qed.

Lemma twoLabels_size : size twoLabels = 2.
Proof. by vm_compute. Qed.

(** X1 (witness).  The family [up{job="x"} 1] and the label set
    [a="1", b="2"], enumerated in this order. *)
Lemma addLabels_frame_witness :
  ∃ mp' ext,
    addLabels orderAB inOrder (Some upMap) twoLabels upHeap
      = (Some mp', upHeap ++ ext)
    ∧ dom mp' = dom upMap
    ∧ (∀ k mf mf', upMap !! k = Some mf → mp' !! k = Some mf' →
         mfName mf' = mfName mf ∧ mfHelp mf' = mfHelp mf
         ∧ mfType mf' = mfType mf
         ∧ mData <$> mfMetric mf' = mData <$> mfMetric mf)
    ∧ (∀ n, Forall2 (λ ls ls', ∃ e, (twoLabels = ∅ ∨ e ∈ map_to_list twoLabels)
                                  ∧ ls' = ls ++ replicate (size twoLabels) e)
              (labelsOf (Some upMap, upHeap) n)
              (labelsOf (Some mp', upHeap ++ ext) n)).
Proof.
  apply (addLabels_frame orderAB inOrder twoLabels orderAB_enumerates
           (@inOrder_enumerates _) upMap upHeap upMap_allocated).
Defined.

(** X2 (witness).  The same family and the label set [env="prod"]. *)
Lemma addLabels_small_label_set_witness :
  labelsOf (addLabels labelsInOrder inOrder (Some upMap) envLabels upHeap) "up"
  = (λ ls, ls ++ map_to_list envLabels) <$> labelsOf (Some upMap, upHeap) "up".
Proof.
  apply (addLabels_small_label_set labelsInOrder inOrder envLabels
           (labelsInOrder_enumerates envLabels) (@inOrder_enumerates _)
           upMap upHeap "up" upMap_allocated).
  unfold envLabels. rewrite map_size_singleton. lia.
Defined.

(** X3 (witness).  The same family and the label set [a="1", b="2"]. *)
Lemma addLabels_duplicate_names_witness :
  Forall (λ ls', ¬ NoDup ls'.*1)
    (labelsOf (addLabels orderAB inOrder (Some upMap) twoLabels upHeap) "up").
Proof.
  apply (addLabels_duplicate_names orderAB inOrder twoLabels orderAB_enumerates
           (@inOrder_enumerates _) upMap upHeap "up" upMap_allocated).
  rewrite twoLabels_size. lia.
Defined.

(** X4 (witness).  The sample of [up] is labelled [job="x"] and the target
    is labelled [job="y"]. *)
Lemma addLabels_keeps_colliding_pair_witness :
  labelsOf (addLabels labelsInOrder inOrder (Some upMap) jobLabels upHeap) "up"
    !! 0 = Some ([("job", "x")] ++ [("job", "y")])
  ∧ ¬ NoDup ([("job", "x")] ++ [("job", "y")]).*1.
Proof.
  apply (addLabels_keeps_colliding_pair labelsInOrder inOrder jobLabels
           (labelsInOrder_enumerates jobLabels) (@inOrder_enumerates _)
           upMap upHeap "up" "job" "y" 0 [("job", "x")] upMap_allocated).
  - unfold jobLabels. rewrite map_size_singleton. lia.
  - apply lookup_singleton_eq.
  - by vm_compute.
  - apply list_elem_of_here.
Defined.

(** X6 (witness).  The three results of [demoResults] and the name [up]. *)
Lemma aggregate_names_witness :
  is_Some (aggregate inOrder demoResults !! "up")
  ↔ ∃ r, r ∈ demoResults ∧ is_Some (entries r !! "up").
Proof.
  apply (aggregate_names inOrder (@inOrder_enumerates _) demoResults "up"
           demoResults_keyed).
Defined.

(** X7 (witness).  The results of [demoResults] in this order and in the
    reverse order. *)
Lemma aggregate_arrival_order_witness :
  (is_Some (aggregate inOrder demoResults !! "up")
   ↔ is_Some (aggregate inOrder (reverse demoResults) !! "up"))
  ∧ from_option mfMetric [] (aggregate inOrder demoResults !! "up")
    ≡ₚ from_option mfMetric [] (aggregate inOrder (reverse demoResults) !! "up").
Proof.
  apply (aggregate_arrival_order inOrder (@inOrder_enumerates _) demoResults
           (reverse demoResults) "up" demoResults_keyed).
  symmetry. apply reverse_Permutation.
Defined.

(** X8 (witness).  The one result [demoMap]. *)
Lemma aggregate_single_witness :
  aggregate inOrder [Some demoMap] = entries (Some demoMap).
Proof.
  apply (aggregate_single inOrder (@inOrder_enumerates _) (Some demoMap)).
  apply (keyed_insert _ (envFamily "down" "dev")), (keyed_singleton secondUp).
Defined.


(** X11 (witness).  Goroutine 0 at its send, goroutine 1 fetching. *)
Lemma fan_in_never_stalls_witness : ∃ s', fanStep 2 id snoc demoSending s'.
Proof.
  apply (fan_in_never_stalls 2 id snoc [] demoSending demoSending_reachable).
  discriminate.
Defined.

Lemma demoDone_steps : nsteps (fanStep 2 id snoc) 10 (fanInit []) demoDone.
Proof.
  eapply nsteps_l; [apply (step_go 2 id snoc _ 0); [done|lia]|]. cbn.
  eapply nsteps_l; [apply (step_go 2 id snoc _ 1); [done|lia]|]. cbn.
  eapply nsteps_l; [by apply step_started|]. cbn.
  eapply nsteps_l; [by apply (step_fetched 2 id snoc _ 1 [] [0])|]. cbn.
  eapply nsteps_l;
    [apply (step_send 2 id snoc _ 1 [] []); [done|unfold capacity; simpl; lia]|].
  cbn.
  eapply nsteps_l; [apply (step_recv 2 id snoc _ 0 1 []); [done|lia|done]|]. cbn.
  eapply nsteps_l; [by apply (step_fetched 2 id snoc _ 0 [] [])|]. cbn.
  eapply nsteps_l;
    [apply (step_send 2 id snoc _ 0 [] []); [done|unfold capacity; simpl; lia]|].
  cbn.
  eapply nsteps_l; [apply (step_recv 2 id snoc _ 1 0 []); [done|lia|done]|]. cbn.
  eapply nsteps_l; [by apply step_leave|]. cbn.
  apply nsteps_O.
Qed.

(** X12 (witness).  The run of two goroutines that ends in [demoDone]. *)
Lemma fan_in_steps_witness :
  10 + fanMeasure 2 demoDone = 4 * 2 + 2
  ∧ (pc demoDone = Serializing → 10 = 4 * 2 + 2).
Proof.
  apply (fan_in_steps 2 id snoc [] 10 demoDone demoDone_steps).
Defined.

Lemma demoFinal_reachable :
  reachable (length [targetB])
    (messageOf demoNet demoParser labelsInOrder inOrder [targetB])
    (mergeResult inOrder) ∅ demoFinal.
Proof.
  unfold reachable.
  eapply rtc_l; [apply (step_go _ _ _ _ 0); [done|simpl; lia]|].
  cbn [pc fetching sending chan allFamilies sent received fanInit].
  eapply rtc_l; [by apply step_started|].
  cbn [pc fetching sending chan allFamilies sent received].
  eapply rtc_l; [by apply (step_fetched _ _ _ _ 0 [] [])|].
  cbn [pc fetching sending chan allFamilies sent received app].
  eapply rtc_l;
    [apply (step_send _ _ _ _ 0 [] []); [done|unfold capacity; simpl; lia]|].
  cbn [pc fetching sending chan allFamilies sent received app].
  eapply rtc_l; [apply (step_recv _ _ _ _ 0 0 []); [done|simpl; lia|done]|].
  cbn [pc fetching sending chan allFamilies sent received app].
  eapply rtc_l; [by apply step_leave|].
  cbn [pc fetching sending chan allFamilies sent received app].
  apply rtc_refl.
Qed.


Lemma demoLoaded_loaded :
  loadConfig demoOpen demoYaml targetLabelsInOrder "/config.yaml" = Ok demoLoaded.
Proof. by vm_compute. Qed.

(** X14 (witness).  The configuration file of [demoOpen]. *)
Lemma loadConfig_ok_witness :
  ∃ f cfg0, demoOpen "/config.yaml" = Ok f ∧ demoYaml f = Ok cfg0
    ∧ Listen demoLoaded ≠ EmptyString
    ∧ (Listen cfg0 ≠ EmptyString → Listen demoLoaded = Listen cfg0)
    ∧ (Listen cfg0 = EmptyString → Listen demoLoaded = "0.0.0.0:9001")
    ∧ URL <$> Targets demoLoaded = URL <$> Targets cfg0
    ∧ Labels <$> Targets demoLoaded = Labels <$> Targets cfg0
    ∧ ∀ i t, Targets demoLoaded !! i = Some t →
        labelsSerialized t
        = serializeLabels (targetLabelsInOrder i (Labels t)).
Proof.
  apply (loadConfig_ok demoOpen demoYaml targetLabelsInOrder "/config.yaml"
           demoLoaded demoLoaded_loaded).
Defined.

(** X15 (witness).  The results of the two loaded targets arrive in the
    order [b], [a]. *)
Lemma loadConfig_scrape_witness :
  contribution demoNet demoParser labelsInOrder inOrder
    <$> arrivalOf (Targets demoLoaded) [1; 0]
  = contribution demoNet demoParser labelsInOrder inOrder
      <$> arrivalOf [targetA; targetB] [1; 0]
  ∧ handleMetrics demoNet demoParser labelsInOrder inOrder inOrder demoEncoder
      (arrivalOf (Targets demoLoaded) [1; 0])
    = handleMetrics demoNet demoParser labelsInOrder inOrder inOrder demoEncoder
        (arrivalOf [targetA; targetB] [1; 0]).
Proof.
  apply (loadConfig_scrape demoOpen demoYaml targetLabelsInOrder demoNet
           demoParser labelsInOrder inOrder inOrder demoEncoder
           "/config.yaml" "targets: [a, b]" demoLoaded
           {| Listen := EmptyString; Targets := [targetA; targetB] |} [1; 0]
           demoLoaded_loaded); reflexivity.
Defined.
